(** * A shallow embedding of the retrieval pipeline of ai-interprep

    Sources: [src/rag_api.py] (query-time retrieval), [src/ingest.py]
    (experience ingestion) and [src/ingest_technical_qa.py] (Q&A
    ingestion).  The external services (the Gemini embedding endpoint,
    the ChromaDB collection and LangChain's text splitter) are parameters
    of the model: an exception raised by one of them is [None]. *)

From stdpp Require Import base gmap strings list fin_maps.
From Stdlib Require Import ZArith Ascii String List Lia.
Import ListNotations.
Open Scope string_scope.

(** ** Python string helpers (on ASCII text) *)
Module PyStr.

Definition chr (n : nat) : string := String (ascii_of_nat n) EmptyString.
Definition nl : string := chr 10.
Definition dq : string := chr 34.

(** A character is a code point 0..255.  [str.lower] on these: A..Z
    and the Latin-1 capitals U+00C0..U+00DE except U+00D7 gain 32. *)
Definition lower_char (c : ascii) : ascii :=
  let n := nat_of_ascii c in
  if ((65 <=? n) && (n <=? 90) ||
      (192 <=? n) && (n <=? 222) && negb (n =? 215))%nat
  then ascii_of_nat (n + 32)%nat else c.

Fixpoint lower (s : string) : string :=
  match s with
  | EmptyString => EmptyString
  | String c s' => String (lower_char c) (lower s')
  end.

(** Python's [str.isspace] on code points 0..255: TAB..CR (9-13), the
    separators FS, GS, RS, US (28-31), space (32), NEL (133) and
    no-break space (160). *)
Definition is_space (c : ascii) : bool :=
  let n := nat_of_ascii c in
  ((9 <=? n) && (n <=? 13) || (28 <=? n) && (n <=? 31) ||
   (n =? 32) || (n =? 133) || (n =? 160))%nat.

Fixpoint lstrip (s : string) : string :=
  match s with
  | EmptyString => EmptyString
  | String c s' => if is_space c then lstrip s' else s
  end.

Fixpoint rev_str (s : string) (acc : string) : string :=
  match s with
  | EmptyString => acc
  | String c s' => rev_str s' (String c acc)
  end.

(** [str.strip()]: leading and trailing whitespace removed. *)
Definition strip (s : string) : string :=
  rev_str (lstrip (rev_str (lstrip s) EmptyString)) EmptyString.

Fixpoint starts_with (p s : string) : bool :=
  match p, s with
  | EmptyString, _ => true
  | String a p', String b s' => Ascii.eqb a b && starts_with p' s'
  | String _ _, EmptyString => false
  end.

(** Python's [p in s]. *)
Fixpoint contains (p s : string) : bool :=
  starts_with p s ||
  match s with
  | EmptyString => false
  | String _ s' => contains p s'
  end.

(** Truthiness of a Python string. *)
Definition truthy (s : string) : bool :=
  match s with EmptyString => false | _ => true end.

Fixpoint digits_aux (fuel n : nat) (acc : string) : string :=
  match fuel with
  | O => acc
  | S fuel' =>
      let acc' := String (ascii_of_nat (48 + n mod 10)%nat) acc in
      if (n <? 10)%nat then acc' else digits_aux fuel' (n / 10)%nat acc'
  end.

(** [str(n)] for a non-negative int. *)
Definition string_of_nat (n : nat) : string := digits_aux (S n) n EmptyString.

(** [str(z)] for an int. *)
Definition string_of_Z (z : Z) : string :=
  if (z <? 0)%Z then "-" ++ string_of_nat (Z.to_nat (- z))
  else string_of_nat (Z.to_nat z).

(** [len(set(ids)) != len(ids)]: some id occurs twice. *)
Fixpoint has_dup (l : list string) : bool :=
  match l with
  | [] => false
  | x :: rest => existsb (String.eqb x) rest || has_dup rest
  end.

(** A JSON id: an int or a string (the data model allows both). *)
Inductive json_id := JInt (z : Z) | JStr (s : string).

(** The text an f-string puts in place of the id. *)
Definition py_str (i : json_id) : string :=
  match i with JInt z => string_of_Z z | JStr s => s end.

End PyStr.

Import PyStr.

(** ** The embedding client ([get_embedding] of each script) *)
Module Embed.

(** The [task_type] argument of [genai.embed_content]. *)
Inductive task_type := retrieval_query | retrieval_document.

Definition vector := list Z.

(** The embedding endpoint: [Some tt] is a request with [task_type=tt],
    [None] a request without it; the answer [None] is an exception
    (network or API error, or no ['embedding'] key in the result). *)
Definition service := option task_type -> string -> option vector.

(** The requests and the store queries a run issues, in order. *)
Inductive event :=
  | EmbedReq (tt : option task_type) (text : string)
  | StoreQuery (n_results : Z).

(** The primary request then, on failure, one retry without
    [task_type]; [None] is the re-raised exception. *)
Definition embed_with_fallback (svc : service) (tt : task_type) (text : string)
    : list event * option vector :=
  match svc (Some tt) text with
  | Some v => ([EmbedReq (Some tt) text], Some v)
  | None => ([EmbedReq (Some tt) text; EmbedReq None text], svc None text)
  end.

(** [rag_api.get_embedding], lines 46-65: the task type is chosen by
    looking for ["query"] in the lower-cased text. *)
Definition query_task_type (text : string) : task_type :=
  if contains "query" (lower text) then retrieval_query else retrieval_document.

Definition get_embedding_api (svc : service) (text : string)
    : list event * option vector :=
  embed_with_fallback svc (query_task_type text) text.

(** [ingest.get_embedding] and [ingest_technical_qa.get_embedding]:
    always [retrieval_document] first. *)
Definition get_embedding_doc (svc : service) (text : string)
    : list event * option vector :=
  embed_with_fallback svc retrieval_document text.

End Embed.

Import Embed.

(** ** Retrieval ([src/rag_api.py]) *)
Module RagApi.

(** The metadata [ingest.main] writes with every chunk (lines 351-358);
    [experience_id] is always present there, so the fallback
    [metadata.get('id')] of line 121 never applies to these entries. *)
Record meta := {
  experience_id : Z;
  m_title : string;
  m_company : string;
  m_chunk_index : nat;
  m_total_chunks : nat;
  m_star_format : string
}.

(** A candidate chunk of [collection.query]: its id and its metadata. *)
Record cand := { c_id : string; c_meta : meta }.

(** The response model [Experience]. *)
Record experience := {
  e_id : Z;
  e_title : string;
  e_company : string;
  e_star_format : string
}.

Definition key (c : cand) : Z := experience_id (c_meta c).

Definition to_experience (c : cand) : experience :=
  {| e_id := key c;
     e_title := m_title (c_meta c);
     e_company := m_company (c_meta c);
     e_star_format := m_star_format (c_meta c) |}.

(** The loop of lines 119-137: [seen] is [seen_experience_ids],
    [acc] is [experiences]. *)
Fixpoint dedup_loop (top_k : Z) (seen : list Z) (acc : list experience)
    (cs : list cand) : list experience :=
  match cs with
  | [] => acc
  | c :: cs' =>
      if existsb (Z.eqb (key c)) seen then dedup_loop top_k seen acc cs'
      else if (top_k <=? Z.of_nat (length acc))%Z then acc
      else dedup_loop top_k (key c :: seen) (acc ++ [to_experience c])%list cs'
  end.

(** Lines 114-139. *)
Definition format_results (top_k : Z) (cs : list cand) : list experience :=
  match cs with
  | [] => []
  | _ => dedup_loop top_k [] [] cs
  end.

(** [collection.query(query_embeddings=[v], n_results=n)]: [None] is an
    exception. *)
Definition store := vector -> Z -> option (list cand).

(** [retrieve_experiences] from line 92 on (the collection has been
    opened; [count] is [collection.count()]).  [None] is an
    [HTTPException]. *)
Definition retrieve (svc : service) (st : store) (count : Z)
    (query : string) (top_k : Z) : list event * option (list experience) :=
  let (ev, r) := get_embedding_api svc query in
  match r with
  | None => (ev, None)
  | Some v =>
      let n := Z.min (top_k * 3) count in
      ((ev ++ [StoreQuery n])%list,
       match st v n with
       | None => None
       | Some cs => Some (format_results top_k cs)
       end)
  end.

(** The nearest-neighbour contract of the vector store (spec 4.3):
    [ranked v] is the collection ordered by ascending distance to [v];
    a query for [n > 0] results returns its first [n] elements.  The
    answer to [n <= 0] is left open. *)
Definition store_contract (st : store) (ranked : vector -> list cand)
    (count : Z) : Prop :=
  (forall v, Z.of_nat (length (ranked v)) = count) /\
  (forall v n, (0 < n)%Z -> st v n = Some (firstn (Z.to_nat n) (ranked v))).

(** Reference definition from the spec's words: the first chunk of each
    grouping key, in candidate order. *)
Fixpoint first_occ_aux (seen : list Z) (cs : list cand) : list cand :=
  match cs with
  | [] => []
  | c :: cs' =>
      if existsb (Z.eqb (key c)) seen then first_occ_aux seen cs'
      else c :: first_occ_aux (key c :: seen) cs'
  end.

Definition first_occ (cs : list cand) : list cand := first_occ_aux [] cs.

End RagApi.

(** ** Experience ingestion ([src/ingest.py]) *)
Module Ingest.

(** [RecursiveCharacterTextSplitter(chunk_size, chunk_overlap, ...)
    .split_text(text)] (LangChain, external); [None] is an exception
    raised by the constructor or by the split. *)
Definition splitter := Z -> Z -> string -> option (list string).

(** [chunk_description], lines 43-68. *)
Definition chunk_description (split : splitter) (description : string)
    (chunk_size chunk_overlap : Z) : option (list string) :=
  if negb (truthy description) || (String.length (strip description) =? 0)%nat
  then Some (if truthy description then [description] else [EmptyString])
  else split chunk_size chunk_overlap description.

(** An element of [experiences.json]. *)
Record exp := {
  x_id : json_id;
  x_title : string;
  x_company : string;
  x_description : string;   (* [exp.get('description', '')] *)
  x_situation : string;
  x_task : string;
  x_action : string;
  x_result : string
}.

(** [create_star_format_text], lines 97-107. *)
Definition create_star_format_text (e : exp) : string :=
  "EXPERIENCE " ++ py_str (x_id e) ++ " - " ++ x_title e ++ ":" ++ nl ++
  "Situation: " ++ dq ++ x_situation e ++ dq ++ nl ++ nl ++
  "Task: " ++ dq ++ x_task e ++ dq ++ nl ++ nl ++
  "Action: " ++ dq ++ x_action e ++ dq ++ nl ++ nl ++
  "Result: " ++ dq ++ x_result e ++ dq ++ nl.

Record imeta := {
  i_experience_id : json_id;
  i_title : string;
  i_company : string;
  i_chunk_index : nat;
  i_total_chunks : nat;
  i_star_format : string
}.

(** One row of [ids], [embeddings], [documents], [metadatas]. *)
Record entry := {
  en_id : string;
  en_vec : vector;
  en_doc : string;
  en_meta : imeta
}.

(** The chunk texts of one experience, lines 167-184. *)
Definition record_chunks (split : splitter) (e : exp) : option (list string) :=
  match chunk_description split (x_description e) 300 50 with
  | None => None
  | Some description_chunks =>
      let empty :=
        match description_chunks with
        | [] => true
        | [c] => negb (truthy (strip c))
        | _ => false
        end in
      Some (if empty then
              ["Title: " ++ x_title e ++ nl ++ "Company: " ++ x_company e ++ nl ++
               "Situation: " ++ x_situation e ++ nl ++
               "Task: " ++ x_task e ++ nl ++
               "Action: " ++ x_action e ++ nl ++
               "Result: " ++ x_result e]
            else
              map (fun chunk => "Title: " ++ x_title e ++ nl ++ "Company: " ++
                                x_company e ++ nl ++ "Description: " ++ chunk)
                  description_chunks)
  end.

Definition chunk_id (e : exp) (chunk_idx : nat) : string :=
  "exp_" ++ py_str (x_id e) ++ "_chunk_" ++ string_of_nat chunk_idx.

Definition mk_entry (e : exp) (total chunk_idx : nat) (text : string)
    (v : vector) : entry :=
  {| en_id := chunk_id e chunk_idx; en_vec := v; en_doc := text;
     en_meta := {| i_experience_id := x_id e; i_title := x_title e;
                   i_company := x_company e; i_chunk_index := chunk_idx;
                   i_total_chunks := total;
                   i_star_format := create_star_format_text e |} |}.

(** The inner loop, lines 187-209: a chunk whose embedding raises is
    skipped ([continue]). *)
Fixpoint process_chunks (svc : service) (e : exp) (total chunk_idx : nat)
    (chunks : list string) : list event * list entry :=
  match chunks with
  | [] => ([], [])
  | text :: rest =>
      let (ev, r) := get_embedding_doc svc text in
      let (evs, ens) := process_chunks svc e total (S chunk_idx) rest in
      ((ev ++ evs)%list,
       match r with
       | Some v => mk_entry e total chunk_idx text v :: ens
       | None => ens
       end)
  end.

(** The outer loop, lines 163-211. *)
Fixpoint collect (svc : service) (split : splitter) (exps : list exp)
    : option (list event * list entry) :=
  match exps with
  | [] => Some ([], [])
  | e :: rest =>
      match record_chunks split e with
      | None => None
      | Some chunks =>
          let (ev, ens) := process_chunks svc e (length chunks) 0 chunks in
          match collect svc split rest with
          | None => None
          | Some (evs, ens') => Some ((ev ++ evs)%list, (ens ++ ens')%list)
          end
      end
  end.

(** A ChromaDB collection keyed by chunk id (the [IndexEntry] primary
    key of the spec's data model). *)
Abbreviation collection := (gmap string entry).

(** [collection.add(ids=..., ...)] of one batch.  ChromaDB raises
    [DuplicateIDError] ([None]) when an id occurs twice in the call, and
    otherwise ignores a row whose id is already stored, keeping the
    stored row. *)
Definition add_batch (c : collection) (batch : list entry) : option collection :=
  if has_dup (map en_id batch) then None
  else Some (fold_left (fun c en =>
                          match c !! en_id en with
                          | Some _ => c
                          | None => <[en_id en := en]> c
                          end) batch c).

Definition batch_size : nat := 100.

(** [ids[start_idx:end_idx]]. *)
Definition slice {A} (l : list A) (start stop : nat) : list A :=
  firstn (stop - start) (skipn start l).

(** Lines 218-228: the slices handed to [collection.add], in order. *)
Definition batch_slices (entries : list entry) : list (list entry) :=
  let n := length entries in
  let total_batches := (n + batch_size - 1) / batch_size in
  map (fun batch_idx =>
         let start_idx := batch_idx * batch_size in
         let end_idx := Nat.min ((batch_idx + 1) * batch_size) n in
         slice entries start_idx end_idx)
      (seq 0 total_batches).

(** The loop of lines 221-237: the collection afterwards, and [false] if
    an [add] raised (the run ends there, earlier batches stay stored). *)
Fixpoint store_slices (batches : list (list entry)) (c : collection)
    : collection * bool :=
  match batches with
  | [] => (c, true)
  | b :: rest =>
      match add_batch c b with
      | None => (c, false)
      | Some c' => store_slices rest c'
      end
  end.

Definition store_batches (entries : list entry) (c : collection) : collection * bool :=
  store_slices (batch_slices entries) c.

(** Lines 160-237 on a freshly created collection: the collection after
    the run, and [false] if the run ended in an exception (the splitter
    or [collection.add] raised). *)
Definition ingest_run (svc : service) (split : splitter) (exps : list exp)
    : collection * bool :=
  match collect svc split exps with
  | None => (∅, false)
  | Some (_, entries) =>
      match entries with
      | [] => (∅, true)
      | _ => store_batches entries ∅
      end
  end.

Definition ingest_into (svc : service) (split : splitter) (exps : list exp)
    : collection :=
  fst (ingest_run svc split exps).

(** [main], lines 110-244, from line 130 on: [db] is the collection
    named ["experience_store"] if it exists, [answer] the line typed at
    the recreate prompt; the result is the collection after the run. *)
Definition main (svc : service) (split : splitter) (exps : list exp)
    (answer : string) (db : option collection) : option collection :=
  match db with
  | Some c =>
      if String.eqb (lower (strip answer)) "y"
      then Some (ingest_into svc split exps)
      else Some c
  | None => Some (ingest_into svc split exps)
  end.

End Ingest.

(** ** Technical Q&A ingestion ([src/ingest_technical_qa.py]) *)
Module TechQA.

(** [chunk_text], lines 49-62 (the same code as [chunk_description]). *)
Definition chunk_text (split : Ingest.splitter) (text : string)
    (chunk_size chunk_overlap : Z) : option (list string) :=
  if negb (truthy text) || (String.length (strip text) =? 0)%nat
  then Some (if truthy text then [text] else [EmptyString])
  else split chunk_size chunk_overlap text.

(** An element of [technical_qa.json]; a missing field is its
    [qa.get] default. *)
Record qa := {
  q_id : option json_id;
  q_question : string;
  q_answer : string;
  q_tags : list string;
  q_category : string
}.

(** [qa.get('id', i)]. *)
Definition qa_id (i : nat) (q : qa) : json_id :=
  match q_id q with Some x => x | None => JInt (Z.of_nat i) end.

Definition tags_text (q : qa) : string := String.concat ", " (q_tags q).

Definition tags_truthy (q : qa) : bool :=
  match q_tags q with [] => false | _ => true end.

(** [create_text_for_embedding], lines 89-101. *)
Definition create_text_for_embedding (q : qa) : string :=
  let parts :=
    app ["Question: " ++ q_question q; "Answer: " ++ q_answer q]
      (app (if tags_truthy q then ["Tags: " ++ tags_text q] else [])
           (if truthy (q_category q) then ["Category: " ++ q_category q] else [])) in
  String.concat (nl ++ nl) parts.

Record qmeta := {
  qm_qa_id : json_id;
  qm_question : string;
  qm_answer : string;
  qm_tags : string;
  qm_category : string;
  qm_chunk_index : nat;
  qm_total_chunks : nat
}.

Record qentry := {
  qe_id : string;
  qe_vec : vector;
  qe_doc : string;
  qe_meta : qmeta
}.

Definition mk_meta (i : nat) (q : qa) (idx total : nat) : qmeta :=
  {| qm_qa_id := qa_id i q;
     qm_question := substring 0 200 (q_question q);
     qm_answer := substring 0 500 (q_answer q);
     qm_tags := tags_text q;
     qm_category := q_category q;
     qm_chunk_index := idx;
     qm_total_chunks := total |}.

(** The text of answer chunk [chunk_idx], lines 165-169. *)
Definition chunk_content (q : qa) (chunk_idx : nat) (answer_chunk : string) : string :=
  "Question: " ++ q_question q ++ nl ++ nl ++ "Answer (part " ++
  string_of_nat (chunk_idx + 1) ++ "): " ++ answer_chunk ++
  (if tags_truthy q then nl ++ nl ++ "Tags: " ++ tags_text q else EmptyString) ++
  (if truthy (q_category q) then nl ++ "Category: " ++ q_category q else EmptyString).

Definition chunk_id (i : nat) (q : qa) (chunk_idx : nat) : string :=
  "qa_" ++ py_str (qa_id i q) ++ "_chunk_" ++ string_of_nat chunk_idx.

Fixpoint process_answer_chunks (svc : service) (i : nat) (q : qa)
    (total chunk_idx : nat) (chunks : list string) : list event * list qentry :=
  match chunks with
  | [] => ([], [])
  | answer_chunk :: rest =>
      let text := chunk_content q chunk_idx answer_chunk in
      let (ev, r) := get_embedding_doc svc text in
      let (evs, ens) := process_answer_chunks svc i q total (S chunk_idx) rest in
      ((ev ++ evs)%list,
       match r with
       | Some v =>
           {| qe_id := chunk_id i q chunk_idx; qe_vec := v; qe_doc := text;
              qe_meta := mk_meta i q chunk_idx total |} :: ens
       | None => ens
       end)
  end.

(** The body of the loop of lines 153-212 for the [i]-th pair. *)
Definition process_qa (svc : service) (split : Ingest.splitter) (i : nat) (q : qa)
    : option (list event * list qentry) :=
  let answer := q_answer q in
  if (500 <? String.length answer)%nat then
    match chunk_text split answer 300 50 with
    | None => None
    | Some answer_chunks =>
        Some (process_answer_chunks svc i q (length answer_chunks) 0 answer_chunks)
    end
  else
    let searchable_text := create_text_for_embedding q in
    let (ev, r) := get_embedding_doc svc searchable_text in
    Some (ev,
          match r with
          | Some v =>
              [{| qe_id := "qa_" ++ py_str (qa_id i q); qe_vec := v;
                  qe_doc := searchable_text; qe_meta := mk_meta i q 0 1 |}]
          | None => []
          end).

(** The loop of lines 153-212, [enumerate(qa_pairs, 1)]. *)
Fixpoint collect_qa (svc : service) (split : Ingest.splitter) (i : nat)
    (qas : list qa) : option (list event * list qentry) :=
  match qas with
  | [] => Some ([], [])
  | q :: rest =>
      match process_qa svc split i q with
      | None => None
      | Some (ev, ens) =>
          match collect_qa svc split (S i) rest with
          | None => None
          | Some (evs, ens') => Some ((ev ++ evs)%list, (ens ++ ens')%list)
          end
      end
  end.

(** The id, [chunk_index] and [total_chunks] of an entry. *)
Definition qentry_key (en : qentry) : string * nat * nat :=
  (qe_id en, qm_chunk_index (qe_meta en), qm_total_chunks (qe_meta en)).

End TechQA.

(** ** Concrete inputs *)
Module Samples.
Import RagApi.

(** An embedding endpoint that always answers, and one that is down. *)
Definition svc_ok : service := fun _ _ => Some [1%Z].
Definition svc_down : service := fun _ _ => None.

Definition mk_cand (eid : Z) (idx : nat) : cand :=
  {| c_id := "exp_" ++ string_of_Z eid ++ "_chunk_" ++ string_of_nat idx;
     c_meta := {| experience_id := eid; m_title := "T" ++ string_of_Z eid;
                  m_company := "C"; m_chunk_index := idx; m_total_chunks := 6;
                  m_star_format := "S" |} |}.

(** Six chunks of experience 1 nearest to every query, then the only
    chunk of experience 2. *)
Definition ranked_ce : list cand :=
  [mk_cand 1 0; mk_cand 1 1; mk_cand 1 2; mk_cand 1 3; mk_cand 1 4;
   mk_cand 1 5; mk_cand 2 0].

(** Experiences 3, 1, 3, 2 in that order. *)
Definition ranked_mixed : list cand :=
  [mk_cand 3 0; mk_cand 1 0; mk_cand 3 1; mk_cand 2 0].

(** A store meeting [store_contract] that raises on [n <= 0]. *)
Definition store_of (ranked : list cand) : store :=
  fun _ n => if (0 <? n)%Z then Some (firstn (Z.to_nat n) ranked) else None.

(** A splitter that rejects [chunk_overlap >= chunk_size] and otherwise
    returns the text whole. *)
Definition split_strict : Ingest.splitter :=
  fun size overlap text => if (overlap <? size)%Z then Some [text] else None.

(** One experience with a short description. *)
Definition exp_one : Ingest.exp :=
  {| Ingest.x_id := JInt 1; Ingest.x_title := "Migration";
     Ingest.x_company := "Acme"; Ingest.x_description := "Moved the service.";
     Ingest.x_situation := "s"; Ingest.x_task := "t";
     Ingest.x_action := "a"; Ingest.x_result := "r" |}.

(** A Q&A pair with a short answer. *)
Definition qa_short : TechQA.qa :=
  {| TechQA.q_id := Some (JInt 7); TechQA.q_question := "What is RAG?";
     TechQA.q_answer := "Retrieval-augmented generation.";
     TechQA.q_tags := ["ml"]; TechQA.q_category := "AI" |}.

(** A Q&A pair whose answer has 600 characters. *)
Definition qa_long : TechQA.qa :=
  {| TechQA.q_id := None; TechQA.q_question := "Explain.";
     TechQA.q_answer := String.concat EmptyString (repeat "abcdefghij" 60);
     TechQA.q_tags := []; TechQA.q_category := EmptyString |}.

End Samples.

(** ** The request handler of [src/rag_api.py] *)
Module RagHandler.
Import RagApi.

(** [retrieve_experiences], lines 68-139.  [api_key] is
    [os.getenv("GEMINI_API_KEY")], [db_path_exists] is
    [os.path.exists("./chroma_db")], [collection] is the result of
    [get_collection(name="experience_store")] ([None] if it raises) with
    its [count()].  The answer [None] is an [HTTPException] (status 500). *)
Definition retrieve_experiences (api_key : option string) (db_path_exists : bool)
    (collection : option (store * Z)) (svc : service) (query : string)
    (top_k : Z) : list event * option (list experience) :=
  match api_key with
  | None => ([], None)
  | Some k =>
      if negb (truthy k) then ([], None)
      else if negb db_path_exists then ([], None)
      else match collection with
           | None => ([], None)
           | Some (st, count) => retrieve svc st count query top_k
           end
  end.

End RagHandler.


(** ** The general knowledge-base ingestion ([src/ingest_general_kb.py]) *)
Module GeneralKB.

(** An element of the knowledge-base file: each field may be missing. *)
Record kb_entry := {
  kb_id : option string;
  kb_content : option string;
  kb_title : option string
}.

(** The file at [KB_PATH]: missing, not valid JSON, or parsed. *)
Inductive kb_file := KbMissing | KbBadJson | KbParsed (entries : list kb_entry).

(** The exceptions the script ends with. *)
Inductive kb_error :=
  | FileNotFoundError | JSONDecodeError | ValueError | EnvironmentError
  | KeyError | DuplicateIDError | EmbeddingError.

(** A stored row: document, vector and the metadata of line 41. *)
Record kb_row := {
  kr_document : string;
  kr_vector : vector;
  kr_title : string;
  kr_kb : string
}.

Abbreviation kb_collection := (gmap string kb_row).

(** A list comprehension over a partial accessor: [None] is the first
    exception raised. *)
Fixpoint map_opt {A B} (f : A -> option B) (l : list A) : option (list B) :=
  match l with
  | [] => Some []
  | x :: rest =>
      match f x with
      | None => None
      | Some y => match map_opt f rest with
                  | None => None
                  | Some ys => Some (y :: ys)
                  end
      end
  end.

(** [entry.get("title", "")]. *)
Definition title_or_empty (e : kb_entry) : string :=
  match kb_title e with Some t => t | None => EmptyString end.

(** [collection.add(ids=..., documents=..., metadatas=...)] into the new
    collection, once the ids are known to be pairwise distinct and the
    collection's embedding function has embedded the documents. *)
Definition kb_add (ids docs : list string) (vecs : list vector)
    (titles : list string) : kb_collection :=
  fold_left (fun c '(i, (d, (v, t))) =>
               <[i := {| kr_document := d; kr_vector := v; kr_title := t;
                         kr_kb := "general" |}]> c)
            (combine ids (combine docs (combine vecs titles))) ∅.

(** The whole script, lines 1-46.  [embed] is the Gemini embedding
    function of the collection; [db] is the collection named
    ["general_kb"] if it exists.  The result is the exception the run
    ends with (if any) and the collection afterwards. *)
Definition kb_ingest (embed : string -> option vector) (file : kb_file)
    (api_key : option string) (db : option kb_collection)
    : option kb_error * option kb_collection :=
  match file with
  | KbMissing => (Some FileNotFoundError, db)
  | KbBadJson => (Some JSONDecodeError, db)
  | KbParsed entries =>
      match entries with
      | [] => (Some ValueError, db)
      | _ =>
          if match api_key with Some k => truthy k | None => false end then
            (* lines 19-30: delete if present, then create *)
            match map_opt kb_id entries with
            | None => (Some KeyError, Some ∅)
            | Some ids =>
                match map_opt kb_content entries with
                | None => (Some KeyError, Some ∅)
                | Some docs =>
                    (* [collection.add] validates the ids before it embeds *)
                    if has_dup ids then (Some DuplicateIDError, Some ∅)
                    else
                      match map_opt embed docs with
                      | None => (Some EmbeddingError, Some ∅)
                      | Some vecs =>
                          (None, Some (kb_add ids docs vecs (map title_or_empty entries)))
                      end
                end
            end
          else (Some EnvironmentError, db)
      end
  end.

End GeneralKB.

(** * Properties of the retrieval service *)
Module RagApiFacts.
Import RagApi.

Lemma existsb_key_in (k : Z) (seen : list Z) :
  existsb (Z.eqb k) seen = true <-> In k seen.
Proof.
  rewrite existsb_exists. split.
  - intros [x [Hx Heq]]. apply Z.eqb_eq in Heq. subst. exact Hx.
  - intros H. exists k. split; [exact H | apply Z.eqb_refl].
Qed.

Lemma key_to_experience (c : cand) : e_id (to_experience c) = key c.
Proof. reflexivity. Qed.

Lemma map_e_id_to_experience (l : list cand) :
  map e_id (map to_experience l) = map key l.
Proof. rewrite map_map. reflexivity. Qed.

(** The loop emits, after [acc], the first occurrences it has not seen,
    up to [top_k] entries in all. *)
Lemma dedup_loop_eq (cs : list cand) : forall top_k seen acc,
  dedup_loop top_k seen acc cs =
  (acc ++ firstn (Z.to_nat top_k - length acc)
                 (map to_experience (first_occ_aux seen cs)))%list.
Proof.
  induction cs as [|c cs IH]; intros top_k seen acc; simpl.
  - rewrite firstn_nil, app_nil_r. reflexivity.
  - destruct (existsb (Z.eqb (key c)) seen) eqn:Hseen.
    + apply IH.
    + destruct (top_k <=? Z.of_nat (length acc))%Z eqn:Hfull.
      * apply Z.leb_le in Hfull.
        replace (Z.to_nat top_k - length acc) with 0 by lia.
        rewrite app_nil_r. reflexivity.
      * apply Z.leb_gt in Hfull. rewrite IH, length_app. simpl.
        replace (Z.to_nat top_k - length acc)
          with (S (Z.to_nat top_k - (length acc + 1))) by lia.
        simpl. rewrite <- app_assoc. reflexivity.
Qed.

Lemma format_results_eq (top_k : Z) (cs : list cand) :
  format_results top_k cs = firstn (Z.to_nat top_k) (map to_experience (first_occ cs)).
Proof.
  destruct cs as [|c cs'].
  - simpl. rewrite firstn_nil. reflexivity.
  - unfold format_results. rewrite dedup_loop_eq. simpl.
    rewrite Nat.sub_0_r. reflexivity.
Qed.

Lemma first_occ_aux_first (cs : list cand) : forall seen c,
  In c (first_occ_aux seen cs) ->
  ~ In (key c) seen /\
  exists i, cs !! i = Some c /\
            forall j c', j < i -> cs !! j = Some c' -> key c' <> key c.
Proof.
  induction cs as [|c0 cs IH]; intros seen c Hin; simpl in Hin.
  - contradiction.
  - destruct (existsb (Z.eqb (key c0)) seen) eqn:Hseen.
    + apply existsb_key_in in Hseen.
      destruct (IH seen c Hin) as [Hnot [i [Hi Hfirst]]].
      split; [exact Hnot|]. exists (S i). split; [exact Hi|].
      intros [|j] c' Hj Hc'.
      * simpl in Hc'. injection Hc' as <-. intros Heq. apply Hnot.
        rewrite <- Heq. exact Hseen.
      * apply (Hfirst j c'); [lia | exact Hc'].
    + destruct Hin as [<- | Hin].
      * split.
        { intros H. apply existsb_key_in in H. congruence. }
        exists 0. split; [reflexivity|]. intros j c' Hj. lia.
      * destruct (IH (key c0 :: seen) c Hin) as [Hnot [i [Hi Hfirst]]].
        split; [intros H; apply Hnot; right; exact H|].
        exists (S i). split; [exact Hi|].
        intros [|j] c' Hj Hc'.
        { simpl in Hc'. injection Hc' as <-. intros Heq. apply Hnot.
          left. exact Heq. }
        { apply (Hfirst j c'); [lia | exact Hc']. }
Qed.

Lemma first_occ_aux_nodup (cs : list cand) : forall seen,
  NoDup (map key (first_occ_aux seen cs)).
Proof.
  induction cs as [|c0 cs IH]; intros seen; simpl.
  - constructor.
  - destruct (existsb (Z.eqb (key c0)) seen) eqn:Hseen.
    + apply IH.
    + simpl. constructor; [|apply IH].
      intros Hin. apply in_map_iff in Hin as [c [Hk Hc]].
      apply first_occ_aux_first in Hc as [Hnot _].
      apply Hnot. left. symmetry. exact Hk.
Qed.

Lemma NoDup_firstn_map {A B} (f : A -> B) (n : nat) (l : list A) :
  NoDup (map f l) -> NoDup (map f (firstn n l)).
Proof.
  revert l. induction n as [|n IH]; intros [|x l] H; simpl; try constructor.
  - simpl in H. inversion H as [|? ? Hx Hl]; subst.
    intros Hin. apply Hx. rewrite <- (firstn_skipn n l), map_app.
    apply in_or_app. left. exact Hin.
  - simpl in H. inversion H as [|? ? Hx Hl]; subst. apply IH. exact Hl.
Qed.

Lemma first_occ_aux_app (l1 l2 : list cand) : forall seen,
  exists seen', first_occ_aux seen (l1 ++ l2) =
                (first_occ_aux seen l1 ++ first_occ_aux seen' l2)%list.
Proof.
  induction l1 as [|c l1 IH]; intros seen; simpl.
  - exists seen. reflexivity.
  - destruct (existsb (Z.eqb (key c)) seen).
    + apply IH.
    + destruct (IH (key c :: seen)) as [seen' E]. exists seen'.
      rewrite E. reflexivity.
Qed.

Lemma embed_events_only (svc : service) (tt : task_type) (text : string) (x : event) :
  In x (fst (embed_with_fallback svc tt text)) -> exists tt' t, x = EmbedReq tt' t.
Proof.
  unfold embed_with_fallback. destruct (svc (Some tt) text); simpl;
    intros H; repeat destruct H as [<- | H]; eauto; contradiction.
Qed.

End RagApiFacts.

(** * Claims on the retrieval service *)
Module RetrievalClaims.
Import RagApi RagApiFacts Samples.

(** C1 (amended).  The first request [retrieve] issues is the
    embedding of the query text, and its [task_type] is
    [retrieval_query] exactly when the lower-cased query contains
    ["query"]; otherwise it is [retrieval_document].  If that request
    fails, exactly one retry without a [task_type] follows; the
    embedding is the primary answer, else the retry's, and only when
    one of them succeeds does the store query come next. *)
Theorem retrieve_primary_request_task_type (svc : service) (st : store)
    (count : Z) (q : string) (top_k : Z) :
  let tt := query_task_type q in
  let emb := match svc (Some tt) q with
             | Some v => Some v
             | None => svc None q
             end in
  fst (retrieve svc st count q top_k) =
    ((EmbedReq (Some tt) q ::
       match svc (Some tt) q with
       | Some _ => []
       | None => [EmbedReq None q]
       end) ++
    match emb with
    | Some _ => [StoreQuery (Z.min (top_k * 3) count)]
    | None => []
    end)%list /\
  (tt = retrieval_query <-> contains "query" (lower q) = true).
Proof.
  intros tt emb. split.
  - unfold emb, retrieve, get_embedding_api, embed_with_fallback. fold tt.
    destruct (svc (Some tt) q) as [v|]; simpl; [reflexivity|].
    destruct (svc None q); reflexivity.
  - unfold tt, query_task_type. destruct (contains "query" (lower q)); split;
      congruence.
Qed.

(** C1 counterexample.  For the query ["hello"] the embedding request
    issued first carries [retrieval_document], not [retrieval_query]. *)
Lemma retrieve_hello_not_query_intent :
  fst (retrieve svc_ok (store_of ranked_ce) 7 "hello" 5) =
    [EmbedReq (Some retrieval_document) "hello"; StoreQuery 7] /\
  ~ (exists rest, fst (retrieve svc_ok (store_of ranked_ce) 7 "hello" 5) =
                  EmbedReq (Some retrieval_query) "hello" :: rest).
Proof.
  split.
  - vm_compute. reflexivity.
  - intros [rest H]. vm_compute in H. congruence.
Qed.

(** C9.  Every store query [retrieve] issues asks for
    [min(top_k * 3, count)] candidates, and it issues one as soon as the
    query embedding succeeds. *)
Theorem retrieve_store_request_clamped (svc : service) (st : store)
    (count : Z) (q : string) (top_k : Z) :
  (forall n, In (StoreQuery n) (fst (retrieve svc st count q top_k)) ->
             n = Z.min (top_k * 3) count) /\
  (forall v, snd (get_embedding_api svc q) = Some v ->
             In (StoreQuery (Z.min (top_k * 3) count))
                (fst (retrieve svc st count q top_k))).
Proof.
  unfold retrieve.
  destruct (get_embedding_api svc q) as [ev r] eqn:E.
  assert (Hev : forall x, In x ev -> exists tt t, x = EmbedReq tt t).
  { intros x Hx. unfold get_embedding_api in E.
    apply (embed_events_only svc (query_task_type q) q).
    rewrite E. exact Hx. }
  split.
  - intros n Hin. destruct r as [v|]; simpl in Hin.
    + apply in_app_or in Hin as [Hin | [Heq | []]].
      * destruct (Hev _ Hin) as [? [? ?]]. discriminate.
      * injection Heq as <-. reflexivity.
    + destruct (Hev _ Hin) as [? [? ?]]. discriminate.
  - intros v Hr. simpl in Hr. subst r. simpl.
    apply in_or_app. right. left. reflexivity.
Qed.

(** C3.  Walking the candidates in the order the store returns them, the
    result is the first [top_k] of the first occurrences of each
    [experience_id]: its ids are pairwise distinct, it has at most
    [top_k] entries (none when [top_k <= 0]), and each entry comes from
    a candidate with no earlier candidate of the same id. *)
Theorem dedup_first_occurrence_wins (top_k : Z) (cs : list cand) :
  format_results top_k cs =
    firstn (Z.to_nat top_k) (map to_experience (first_occ cs)) /\
  NoDup (map e_id (format_results top_k cs)) /\
  length (format_results top_k cs) <= Z.to_nat top_k /\
  (forall e, In e (format_results top_k cs) ->
     exists i c, cs !! i = Some c /\ to_experience c = e /\
                 forall j c', j < i -> cs !! j = Some c' -> key c' <> key c).
Proof.
  rewrite format_results_eq.
  split; [reflexivity|]. split; [|split].
  - rewrite firstn_map, map_e_id_to_experience.
    apply NoDup_firstn_map, first_occ_aux_nodup.
  - rewrite length_firstn. lia.
  - intros e He. rewrite firstn_map in He.
    apply in_map_iff in He as [c [<- Hc]].
    assert (Hc' : In c (first_occ cs)).
    { rewrite <- (firstn_skipn (Z.to_nat top_k) (first_occ cs)).
      apply in_or_app. left. exact Hc. }
    clear Hc. rename Hc' into Hc.
    destruct (first_occ_aux_first cs [] c Hc) as [_ [i [Hi Hfirst]]].
    exists i, c. auto.
Qed.

(** C2 (amended).  When the query embedding succeeds, the store follows
    its nearest-neighbour contract, [top_k >= 1] and the collection is
    not empty, [retrieve] returns the first [top_k] distinct experiences
    among the [min(top_k * 3, count)] nearest chunks.  They are a prefix
    of all experiences ranked by their best chunk, their ids are
    distinct, and there are [min(top_k, d)] of them, where [d] is the
    number of distinct experiences among the fetched chunks.  That count
    can be below [top_k] even when the collection holds [top_k]
    experiences. *)
Theorem retrieve_best_chunk_prefix (svc : service) (st : store)
    (ranked : vector -> list cand) (count : Z) (q : string) (top_k : Z)
    (v : vector)
    (Hst : store_contract st ranked count)
    (He : snd (get_embedding_api svc q) = Some v)
    (Hk : (1 <= top_k)%Z) (Hc : (1 <= count)%Z) :
  let fetched :=
    first_occ (firstn (Z.to_nat (Z.min (top_k * 3) count)) (ranked v)) in
  let r := firstn (Z.to_nat top_k) (map to_experience fetched) in
  snd (retrieve svc st count q top_k) = Some r /\
  (exists rest, (r ++ rest)%list = map to_experience (first_occ (ranked v))) /\
  NoDup (map e_id r) /\
  length r = Nat.min (Z.to_nat top_k) (length fetched).
Proof.
  destruct Hst as [_ Hq]. cbv zeta.
  set (n := Z.min (top_k * 3) count).
  set (R := ranked v).
  set (fetched := first_occ (firstn (Z.to_nat n) R)).
  split; [|split; [|split]].
  - unfold retrieve. destruct (get_embedding_api svc q) as [ev r] eqn:E.
    simpl in He. subst r. cbv zeta.
    rewrite (Hq v (Z.min (top_k * 3) count)) by lia. rewrite format_results_eq. reflexivity.
  - destruct (first_occ_aux_app (firstn (Z.to_nat n) R) (skipn (Z.to_nat n) R) [])
      as [seen' Happ].
    rewrite firstn_skipn in Happ.
    exists (skipn (Z.to_nat top_k) (map to_experience fetched) ++
            map to_experience (first_occ_aux seen' (skipn (Z.to_nat n) R)))%list.
    rewrite app_assoc, firstn_skipn.
    unfold first_occ. rewrite Happ, map_app. reflexivity.
  - rewrite firstn_map, map_e_id_to_experience.
    apply NoDup_firstn_map, first_occ_aux_nodup.
  - rewrite length_firstn, length_map. reflexivity.
Qed.

(** Witness for C2: two of the three experiences 3, 1, 2 requested. *)
Lemma retrieve_best_chunk_prefix_witness :
  snd (retrieve svc_ok (store_of ranked_mixed) 4 "my query" 2) =
    Some (firstn 2 (map to_experience
            (first_occ (firstn (Z.to_nat (Z.min (2 * 3) 4)) ranked_mixed)))) /\
  length (first_occ (firstn (Z.to_nat (Z.min (2 * 3) 4)) ranked_mixed)) = 3.
Proof.
  split; [|vm_compute; reflexivity].
  refine (proj1 (retrieve_best_chunk_prefix svc_ok (store_of ranked_mixed)
                   (fun _ => ranked_mixed) 4 "my query" 2 [1%Z] _ _ _ _)).
  - split.
    + intros _. reflexivity.
    + intros w n Hn. unfold store_of.
      destruct (0 <? n)%Z eqn:H; [reflexivity|]. apply Z.ltb_ge in H. lia.
  - reflexivity.
  - lia.
  - lia.
Defined.

(** C2 counterexample.  The collection holds chunks of two experiences,
    but the six chunks of experience 1 fill the [2 * 3] fetched
    candidates, so [retrieve] with [top_k = 2] returns one experience. *)
Lemma retrieve_two_records_one_result :
  length (first_occ ranked_ce) = 2 /\
  Z.of_nat (length ranked_ce) = 7%Z /\
  option_map (@length experience)
    (snd (retrieve svc_ok (store_of ranked_ce) 7 "tell me" 2)) = Some 1.
Proof. vm_compute. repeat split. Qed.

End RetrievalClaims.

(** * Properties of experience ingestion *)
Module IngestFacts.
Import Ingest.

Lemma slice_app {A} (l : list A) (a b c : nat) :
  a <= b -> b <= c -> (slice l a b ++ slice l b c)%list = slice l a c.
Proof.
  intros Hab Hbc. unfold slice.
  replace (skipn b l) with (skipn (b - a) (skipn a l))
    by (rewrite drop_drop; f_equal; lia).
  rewrite take_take_drop. f_equal. lia.
Qed.

Lemma has_dup_false (l : list string) : has_dup l = false <-> NoDup l.
Proof.
  induction l as [|x l IH]; simpl.
  - split; [intros _; constructor | reflexivity].
  - rewrite orb_false_iff, IH, NoDup_cons_iff. split.
    + intros [Hx Hnd]. split; [|exact Hnd]. intros Hin.
      assert (H : existsb (String.eqb x) l = true)
        by (apply existsb_exists; exists x; split; [exact Hin | apply String.eqb_refl]).
      congruence.
    + intros [Hx Hnd]. split; [|exact Hnd].
      destruct (existsb (String.eqb x) l) eqn:E; [|reflexivity].
      apply existsb_exists in E as [y [Hy Hxy]]. apply String.eqb_eq in Hxy. subst y.
      contradiction.
Qed.

(** Adding the entries one at a time, each under its id. *)
Definition insert_all (c : collection) (l : list entry) : collection :=
  fold_left (fun c en => <[en_id en := en]> c) l c.

Lemma insert_all_cons (c : collection) (en : entry) (l : list entry) :
  insert_all c (en :: l) = insert_all (<[en_id en := en]> c) l.
Proof. reflexivity. Qed.

Lemma insert_all_app (c : collection) (l1 l2 : list entry) :
  insert_all c (l1 ++ l2) = insert_all (insert_all c l1) l2.
Proof. unfold insert_all. apply fold_left_app. Qed.

Lemma insert_all_other (l : list entry) : forall (c : collection) k,
  (forall en, In en l -> en_id en <> k) -> insert_all c l !! k = c !! k.
Proof.
  induction l as [|en l IH]; intros c k H; [reflexivity|].
  rewrite insert_all_cons, IH by (intros x Hx; apply H; right; exact Hx).
  apply lookup_insert_ne. apply H. left. reflexivity.
Qed.

Lemma insert_all_in (l : list entry) : forall (c : collection) en,
  NoDup (map en_id l) -> In en l -> insert_all c l !! en_id en = Some en.
Proof.
  induction l as [|x l IH]; intros c en Hnd Hin; [contradiction|].
  simpl in Hnd. apply NoDup_cons_iff in Hnd as [Hx Hnd].
  rewrite insert_all_cons. destruct Hin as [<- | Hin].
  - rewrite insert_all_other; [apply lookup_insert_eq|].
    intros y Hy Heq. apply Hx. rewrite <- Heq. apply in_map. exact Hy.
  - apply IH; assumption.
Qed.

Lemma insert_all_from (l : list entry) : forall (c : collection) k x,
  insert_all c l !! k = Some x -> In x l \/ c !! k = Some x.
Proof.
  induction l as [|en l IH]; intros c k x H; [right; exact H|].
  rewrite insert_all_cons in H. apply IH in H as [H | H]; [left; right; exact H|].
  destruct (decide (en_id en = k)) as [<- | Hne].
  - rewrite lookup_insert_eq in H. injection H as <-. left. left. reflexivity.
  - rewrite lookup_insert_ne in H by exact Hne. right. exact H.
Qed.

Lemma insert_all_keys (l : list entry) : forall (c : collection) k x,
  (forall k' x', c !! k' = Some x' -> en_id x' = k') ->
  insert_all c l !! k = Some x -> en_id x = k.
Proof.
  induction l as [|en l IH]; intros c k x Hc H; [exact (Hc k x H)|].
  rewrite insert_all_cons in H. apply (IH (<[en_id en := en]> c) k x); [|exact H].
  intros k' x' H'. destruct (decide (en_id en = k')) as [<- | Hne].
  - rewrite lookup_insert_eq in H'. injection H' as <-. reflexivity.
  - rewrite lookup_insert_ne in H' by exact Hne. exact (Hc k' x' H').
Qed.

Lemma insert_all_size (l : list entry) : forall (c : collection),
  NoDup (map en_id l) -> (forall en, In en l -> c !! en_id en = None) ->
  size (insert_all c l) = size c + length l.
Proof.
  induction l as [|en l IH]; intros c Hnd Hfresh; [simpl; lia|].
  simpl in Hnd. apply NoDup_cons_iff in Hnd as [Hx Hnd].
  rewrite insert_all_cons, IH; [| exact Hnd |].
  - rewrite map_size_insert_None by (apply Hfresh; left; reflexivity). simpl. lia.
  - intros y Hy. rewrite lookup_insert_ne.
    + apply Hfresh. right. exact Hy.
    + intros Heq. apply Hx. rewrite Heq. apply in_map. exact Hy.
Qed.

(** On ids that are pairwise distinct and not yet stored, [add] stores
    every row. *)
Lemma add_batch_fresh (l : list entry) (c : collection) :
  NoDup (map en_id l) -> (forall en, In en l -> c !! en_id en = None) ->
  add_batch c l = Some (insert_all c l).
Proof.
  intros Hnd Hfresh. unfold add_batch.
  replace (has_dup (map en_id l)) with false by (symmetry; apply has_dup_false; exact Hnd).
  f_equal. revert c Hfresh. induction l as [|en l IH]; intros c Hfresh; [reflexivity|].
  simpl in Hnd. apply NoDup_cons_iff in Hnd as [Hx Hnd]. cbn [fold_left].
  rewrite (Hfresh en (or_introl eq_refl)). rewrite insert_all_cons.
  apply (IH Hnd). intros y Hy. rewrite lookup_insert_ne.
  - apply Hfresh. right. exact Hy.
  - intros Heq. apply Hx. rewrite Heq. apply in_map. exact Hy.
Qed.

Lemma add_batch_dup (l : list entry) (c : collection) :
  ~ NoDup (map en_id l) -> add_batch c l = None.
Proof.
  intros Hnd. unfold add_batch. destruct (has_dup (map en_id l)) eqn:E; [reflexivity|].
  apply has_dup_false in E. contradiction.
Qed.

Lemma NoDup_app_disjoint {A} (l1 l2 : list A) (x : A) :
  NoDup (l1 ++ l2) -> In x l1 -> In x l2 -> False.
Proof.
  induction l1 as [|a l1 IH]; intros Hnd H1 H2; [contradiction|].
  simpl in Hnd. apply NoDup_cons_iff in Hnd as [Ha Hnd].
  destruct H1 as [-> | H1]; [apply Ha, in_or_app; right; exact H2 | exact (IH Hnd H1 H2)].
Qed.

Lemma store_slices_fresh (bs : list (list entry)) : forall (c : collection),
  NoDup (map en_id (concat bs)) ->
  (forall en, In en (concat bs) -> c !! en_id en = None) ->
  store_slices bs c = (insert_all c (concat bs), true).
Proof.
  induction bs as [|b bs IH]; intros c Hnd Hfresh; [reflexivity|].
  simpl in *. rewrite map_app in Hnd.
  pose proof (NoDup_app_remove_r _ _ Hnd) as Hb.
  pose proof (NoDup_app_remove_l _ _ Hnd) as Hbs.
  rewrite add_batch_fresh; [| exact Hb | intros en Hen; apply Hfresh, in_or_app; left; exact Hen].
  rewrite IH, insert_all_app; [reflexivity | exact Hbs |].
  intros en Hen. rewrite insert_all_other.
  - apply Hfresh. apply in_or_app. right. exact Hen.
  - intros y Hy Heq. apply (NoDup_app_disjoint _ _ (en_id y) Hnd).
    + apply in_map. exact Hy.
    + rewrite Heq. apply in_map. exact Hen.
Qed.

Lemma batch_concat_from (ens : list entry) (k : nat) : forall s,
  concat (map (fun batch_idx =>
                 slice ens (batch_idx * batch_size)
                       (Nat.min ((batch_idx + 1) * batch_size) (length ens)))
              (seq s k)) =
  slice ens (s * batch_size) (Nat.min ((s + k) * batch_size) (length ens)).
Proof.
  unfold batch_size. set (n := length ens).
  induction k as [|k IH]; intros s; simpl.
  - unfold slice. replace (Nat.min ((s + 0) * 100) n - s * 100) with 0 by lia.
    reflexivity.
  - rewrite IH.
    destruct (Nat.le_gt_cases ((s + 1) * 100) n) as [Hle | Hgt].
    + replace (Nat.min ((s + 1) * 100) n) with ((s + 1) * 100) by lia.
      replace (S s * 100) with ((s + 1) * 100) by lia.
      replace (S s + k) with (s + S k) by lia.
      apply slice_app; lia.
    + replace (Nat.min ((s + 1) * 100) n) with n by lia.
      replace (Nat.min ((S s + k) * 100) n) with n by lia.
      replace (Nat.min ((s + S k) * 100) n) with n by lia.
      unfold slice at 2. replace (n - S s * 100) with 0 by lia.
      simpl. rewrite app_nil_r. reflexivity.
Qed.

(** The batches, concatenated, are the entries in order. *)
Lemma batch_slices_concat (ens : list entry) : concat (batch_slices ens) = ens.
Proof.
  unfold batch_slices. cbv zeta. rewrite batch_concat_from. unfold batch_size.
  set (n := length ens).
  assert (Hd := Nat.div_mod_eq (n + 100 - 1) 100).
  assert (Hm := Nat.mod_upper_bound (n + 100 - 1) 100).
  replace (Nat.min ((0 + (n + 100 - 1) / 100) * 100) n) with n by lia.
  unfold slice. simpl. rewrite Nat.sub_0_r. apply firstn_all.
Qed.

(** With pairwise distinct ids not yet stored, writing in batches of
    [batch_size] completes and writes every entry once, in order. *)
Lemma store_batches_fresh (ens : list entry) (c : collection) :
  NoDup (map en_id ens) -> (forall en, In en ens -> c !! en_id en = None) ->
  store_batches ens c = (insert_all c ens, true).
Proof.
  intros Hnd Hfresh. unfold store_batches.
  rewrite store_slices_fresh; rewrite batch_slices_concat; auto.
Qed.

Lemma process_chunks_entries (svc : service) (e : exp) (total : nat)
    (chunks : list string) : forall k en,
  In en (snd (process_chunks svc e total k chunks)) <->
  exists i text v, chunks !! i = Some text /\
                   snd (get_embedding_doc svc text) = Some v /\
                   en = mk_entry e total (k + i) text v.
Proof.
  induction chunks as [|t rest IH]; intros k en; simpl.
  - split; [contradiction|]. intros [i [text [v [Hi _]]]].
    rewrite lookup_nil in Hi. discriminate.
  - destruct (get_embedding_doc svc t) as [ev r] eqn:E.
    destruct (process_chunks svc e total (S k) rest) as [evs ens] eqn:P.
    specialize (IH (S k) en). rewrite P in IH. simpl in IH.
    split.
    + intros Hin. destruct r as [v|].
      * destruct Hin as [<- | Hin].
        -- exists 0, t, v. rewrite E. repeat split. f_equal. lia.
        -- apply IH in Hin as [i [text [w [Hi [Hw ->]]]]].
           exists (S i), text, w. repeat split; auto. f_equal. lia.
      * apply IH in Hin as [i [text [w [Hi [Hw ->]]]]].
        exists (S i), text, w. repeat split; auto. f_equal. lia.
    + intros [[|i] [text [v [Hi [Hv ->]]]]].
      * simpl in Hi. injection Hi as <-. rewrite E in Hv. simpl in Hv. subst r.
        left. f_equal. lia.
      * assert (Hin : In (mk_entry e total (k + S i) text v) ens).
        { apply IH. exists i, text, v. repeat split; auto. f_equal. lia. }
        destruct r; [right|]; exact Hin.
Qed.

Lemma process_chunks_events (svc : service) (e : exp) (total : nat)
    (chunks : list string) : forall k,
  fst (process_chunks svc e total k chunks) =
  flat_map (fun text => fst (get_embedding_doc svc text)) chunks.
Proof.
  induction chunks as [|t rest IH]; intros k; simpl; [reflexivity|].
  destruct (get_embedding_doc svc t) as [ev r].
  specialize (IH (S k)).
  destruct (process_chunks svc e total (S k) rest) as [evs ens].
  simpl in *. rewrite IH. reflexivity.
Qed.

End IngestFacts.

Module CollectFacts.
Import Ingest IngestFacts.

Lemma collect_defined (svc : service) (split : splitter) (exps : list exp) :
  collect svc split exps <> None <->
  forall e, In e exps -> record_chunks split e <> None.
Proof.
  induction exps as [|e rest IH]; simpl.
  - split; [contradiction | congruence].
  - destruct (record_chunks split e) as [chunks|] eqn:Rc.
    + destruct (process_chunks svc e (length chunks) 0 chunks) as [ev ens].
      destruct (collect svc split rest) as [[evs ens']|] eqn:C.
      * split; [|intros _; congruence]. intros _ e' [<- | He'].
        -- congruence.
        -- apply (proj1 IH); [congruence | exact He'].
      * split; [intros Hn; congruence|]. intros H _.
        apply (proj2 IH); [|reflexivity].
        intros e' He'. apply H. right. exact He'.
    + split; [intros Hn; congruence|]. intros H. exfalso. apply (H e); auto.
Qed.

Definition record_events (svc : service) (split : splitter) (e : exp) : list event :=
  match record_chunks split e with
  | Some chunks => flat_map (fun text => fst (get_embedding_doc svc text)) chunks
  | None => []
  end.

Lemma collect_spec (svc : service) (split : splitter) (exps : list exp) :
  forall evs ens, collect svc split exps = Some (evs, ens) ->
  evs = flat_map (record_events svc split) exps /\
  forall en, In en ens <->
    exists e chunks i text v,
      In e exps /\ record_chunks split e = Some chunks /\
      chunks !! i = Some text /\
      snd (get_embedding_doc svc text) = Some v /\
      en = mk_entry e (length chunks) i text v.
Proof.
  induction exps as [|e rest IH]; intros evs ens H; simpl in H.
  - injection H as <- <-. split; [reflexivity|]. intros en. split.
    + contradiction.
    + intros [e [_ [_ [_ [_ [[] _]]]]]].
  - destruct (record_chunks split e) as [chunks|] eqn:Rc; [|discriminate].
    pose proof (process_chunks_entries svc e (length chunks) chunks 0) as PE.
    pose proof (process_chunks_events svc e (length chunks) chunks 0) as PV.
    destruct (process_chunks svc e (length chunks) 0 chunks) as [ev ens0].
    destruct (collect svc split rest) as [[evs' ens']|] eqn:C; [|discriminate].
    injection H as <- <-. destruct (IH evs' ens' eq_refl) as [IHv IHe].
    split.
    + simpl. unfold record_events at 1. rewrite Rc. simpl in PV.
      rewrite PV, IHv. reflexivity.
    + intros en. rewrite in_app_iff, IHe. simpl in PE. rewrite PE. split.
      * intros [[i [text [v [Hi [Hv ->]]]]] | [e' [ch [i [text [v [He' Hrest]]]]]]].
        -- exists e, chunks, i, text, v. simpl. repeat split; auto.
        -- exists e', ch, i, text, v. simpl. tauto.
      * intros [e' [ch [i [text [v [[<- | He'] [Hch [Hi [Hv ->]]]]]]]]].
        -- left. rewrite Rc in Hch. injection Hch as <-. exists i, text, v.
           repeat split; auto.
        -- right. exists e', ch, i, text, v. auto.
Qed.

Lemma ingest_run_fresh (svc : service) (split : splitter) (exps : list exp)
    (evs : list event) (ens : list entry) :
  collect svc split exps = Some (evs, ens) -> NoDup (map en_id ens) ->
  ingest_run svc split exps = (insert_all ∅ ens, true).
Proof.
  intros Hc Hnd. unfold ingest_run. rewrite Hc.
  destruct ens as [|en ens']; [reflexivity|].
  apply store_batches_fresh; [exact Hnd|]. intros x _. apply lookup_empty.
Qed.

End CollectFacts.

(** * Claims on ingestion and chunking *)
Module IngestClaims.
Import Ingest IngestFacts CollectFacts Samples.

(** C4 (amended).  In the collection keyed by [chunk_id], writing an
    entry whose id is already stored neither duplicates nor overwrites
    it: [collection.add] keeps the stored row, so the collection and its
    size are unchanged; an [add] naming one id twice raises.  Running
    [main] again on the same corpus (either answer at the prompt, the
    embedding service answering as before) leaves the collection, hence
    its size, unchanged. *)
Theorem reingest_keeps_index (svc : service) (split : splitter)
    (exps : list exp) (db : option collection) (a1 a2 : string)
    (Hrun : db = None \/ String.eqb (lower (strip a1)) "y" = true) :
  (forall (c : collection) (en old : entry), c !! en_id en = Some old ->
     add_batch c [en] = Some c) /\
  (forall (c : collection) (batch : list entry), ~ NoDup (map en_id batch) ->
     add_batch c batch = None) /\
  main svc split exps a2 (main svc split exps a1 db) = main svc split exps a1 db /\
  option_map size (main svc split exps a2 (main svc split exps a1 db)) =
  option_map size (main svc split exps a1 db).
Proof.
  assert (Hmain : main svc split exps a1 db = Some (ingest_into svc split exps)).
  { unfold main. destruct Hrun as [-> | Hy]; [reflexivity|].
    destruct db; [rewrite Hy|]; reflexivity. }
  assert (Hagain : main svc split exps a2 (main svc split exps a1 db) =
                   main svc split exps a1 db).
  { rewrite Hmain. unfold main.
    destruct (String.eqb (lower (strip a2)) "y"); reflexivity. }
  split; [|split; [|split]].
  - intros c en old Hold. unfold add_batch. simpl. rewrite Hold. reflexivity.
  - intros c batch Hnd. apply add_batch_dup. exact Hnd.
  - exact Hagain.
  - rewrite Hagain. reflexivity.
Qed.

(** Witness for C4: a first ingestion into a missing collection. *)
Lemma reingest_keeps_index_witness :
  (None : option collection) = None /\
  main svc_ok split_strict [exp_one] "n" (main svc_ok split_strict [exp_one] "y" None) =
  main svc_ok split_strict [exp_one] "y" None.
Proof.
  split; [reflexivity|].
  exact (proj1 (proj2 (proj2 (reingest_keeps_index svc_ok split_strict [exp_one]
                                 None "y" "n" (or_introl eq_refl))))).
Defined.

(** C4 counterexample.  Writing a new text under the stored id
    ["exp_1_chunk_0"] keeps the stored entry: nothing is overwritten. *)
Lemma add_existing_id_not_overwritten :
  let old := mk_entry exp_one 1 0 "old text" [1%Z] in
  let en := mk_entry exp_one 1 0 "new text" [2%Z] in
  en_id en = en_id old /\
  option_map (fun c : collection => c !! en_id en) (add_batch {[en_id old := old]} [en]) =
    Some (Some old) /\
  old <> en.
Proof.
  vm_compute. split; [reflexivity | split; [reflexivity | discriminate]].
Qed.

(** C6.  Each chunk's embedding first requests [retrieval_document]; only
    if that fails is one more request made, without a task type, whose
    answer is the result.  A run is aborted only by the splitter, never by
    an embedding failure.  The entries of a run are exactly the chunks,
    of every record, whose embedding succeeded. *)
Theorem ingest_skips_only_failed_chunks (svc : service) (split : splitter)
    (exps : list exp) (evs : list event) (ens : list entry)
    (Hrun : collect svc split exps = Some (evs, ens)) :
  (forall text,
     fst (get_embedding_doc svc text) =
       EmbedReq (Some retrieval_document) text ::
         match svc (Some retrieval_document) text with
         | Some _ => []
         | None => [EmbedReq None text]
         end /\
     snd (get_embedding_doc svc text) =
       match svc (Some retrieval_document) text with
       | Some v => Some v
       | None => svc None text
       end) /\
  evs = flat_map (record_events svc split) exps /\
  (forall svc' : service, collect svc' split exps <> None) /\
  (forall en, In en ens <->
     exists e chunks i text v,
       In e exps /\ record_chunks split e = Some chunks /\
       chunks !! i = Some text /\
       snd (get_embedding_doc svc text) = Some v /\
       en = mk_entry e (length chunks) i text v).
Proof.
  destruct (collect_spec svc split exps evs ens Hrun) as [Hev Hen].
  split; [|split; [exact Hev | split; [|exact Hen]]].
  - intros text. unfold get_embedding_doc, embed_with_fallback.
    destruct (svc (Some retrieval_document) text); split; reflexivity.
  - intros svc'. apply collect_defined. apply (collect_defined svc).
    rewrite Hrun. discriminate.
Qed.

(** Witness for C6: the embedding endpoint is down, the run completes
    with no entry. *)
Lemma ingest_skips_only_failed_chunks_witness :
  collect svc_down split_strict [exp_one; exp_one] <> None /\
  exists evs, collect svc_down split_strict [exp_one; exp_one] = Some (evs, []).
Proof.
  split.
  - refine (proj1 (proj2 (proj2 (ingest_skips_only_failed_chunks svc_ok split_strict
              [exp_one; exp_one] _ _ _))) svc_down).
    vm_compute. reflexivity.
  - eexists. vm_compute. reflexivity.
Defined.

(** C7 (amended).  For empty or whitespace-only text both chunkers
    return a one-element list holding the text unchanged: [[""]] for
    the empty string, the whitespace itself otherwise. *)
Theorem chunkers_blank_text (split : splitter) (text : string)
    (chunk_size chunk_overlap : Z) (Hblank : strip text = EmptyString) :
  chunk_description split text chunk_size chunk_overlap = Some [text] /\
  TechQA.chunk_text split text chunk_size chunk_overlap = Some [text].
Proof.
  unfold chunk_description, TechQA.chunk_text. rewrite Hblank.
  destruct text; split; reflexivity.
Qed.

(** Witness for C7: two spaces. *)
Lemma chunkers_blank_text_witness :
  strip "  " = EmptyString /\
  chunk_description split_strict "  " 300 50 = Some ["  "].
Proof.
  split; [reflexivity|].
  exact (proj1 (chunkers_blank_text split_strict "  " 300 50 eq_refl)).
Defined.

(** C7 counterexample.  Whitespace-only text gives back the whitespace,
    not the empty string. *)
Lemma chunk_description_spaces :
  chunk_description split_strict "  " 300 50 = Some ["  "] /\
  ["  "] <> [EmptyString].
Proof. split; [reflexivity | discriminate]. Qed.

(** C8 (amended).  [chunk_description] makes no check of its own on the
    sizes: blank text gives [[text]] whatever [chunk_size] and
    [chunk_overlap] are; any other text goes to the splitter with both
    sizes unchanged. *)
Theorem chunk_description_no_size_check (split : splitter) (text : string)
    (chunk_size chunk_overlap : Z) :
  chunk_description split text chunk_size chunk_overlap =
  if (String.length (strip text) =? 0)%nat then Some [text]
  else split chunk_size chunk_overlap text.
Proof. destruct text; reflexivity. Qed.

(** C8 counterexample.  With [chunk_overlap = chunk_size = 300], even
    with a splitter that rejects such sizes, the empty description gives
    [[""]] and no error. *)
Lemma chunk_description_equal_sizes_no_error :
  split_strict 300%Z 300%Z "x" = None /\
  chunk_description split_strict EmptyString 300 300 = Some [EmptyString].
Proof. split; reflexivity. Qed.

End IngestClaims.

(** * Claims on Q&A ingestion *)
Module TechQAClaims.
Import TechQA Samples.

Lemma process_answer_chunks_keys (svc : service) (i : nat) (q : qa)
    (total : nat) (chunks : list string) : forall k,
  map qentry_key (snd (process_answer_chunks svc i q total k chunks)) =
  flat_map (fun '(idx, t) =>
              match snd (get_embedding_doc svc (chunk_content q idx t)) with
              | Some _ => [(chunk_id i q idx, idx, total)]
              | None => []
              end)
           (combine (seq k (length chunks)) chunks).
Proof.
  induction chunks as [|t rest IH]; intros k; simpl; [reflexivity|].
  destruct (get_embedding_doc svc (chunk_content q k t)) as [ev r].
  specialize (IH (S k)).
  destruct (process_answer_chunks svc i q total (S k) rest) as [evs ens].
  simpl in *. destruct r; simpl; rewrite IH; reflexivity.
Qed.

(** C10 (amended).  An answer of at most 500 characters is not chunked:
    the pair yields one entry with id [qa_{id}], [chunk_index] 0 and
    [total_chunks] 1 when its embedding succeeds, and none otherwise.  A
    longer answer yields one entry per chunk whose embedding succeeds,
    with id [qa_{id}_chunk_{idx}], [chunk_index] [idx] and
    [total_chunks] the number of chunks. *)
Theorem qa_entries_by_answer_length (svc : service) (split : Ingest.splitter)
    (i : nat) (q : qa) :
  ((String.length (q_answer q) <= 500)%nat ->
   exists ev ens, process_qa svc split i q = Some (ev, ens) /\
     map qentry_key ens =
       match snd (get_embedding_doc svc (create_text_for_embedding q)) with
       | Some _ => [("qa_" ++ py_str (qa_id i q), 0%nat, 1%nat)]
       | None => []
       end) /\
  ((500 < String.length (q_answer q))%nat ->
   forall chunks, chunk_text split (q_answer q) 300 50 = Some chunks ->
   exists ev ens, process_qa svc split i q = Some (ev, ens) /\
     map qentry_key ens =
       flat_map (fun '(idx, t) =>
                   match snd (get_embedding_doc svc (chunk_content q idx t)) with
                   | Some _ => [(chunk_id i q idx, idx, length chunks)]
                   | None => []
                   end)
                (combine (seq 0 (length chunks)) chunks)).
Proof.
  split.
  - intros Hshort. unfold process_qa.
    replace (500 <? String.length (q_answer q))%nat with false
      by (symmetry; apply Nat.ltb_ge; exact Hshort).
    destruct (get_embedding_doc svc (create_text_for_embedding q)) as [ev r].
    exists ev. eexists. split; [reflexivity|]. simpl.
    destruct r; reflexivity.
  - intros Hlong chunks Hch. unfold process_qa.
    replace (500 <? String.length (q_answer q))%nat with true
      by (symmetry; apply Nat.ltb_lt; exact Hlong).
    rewrite Hch.
    pose proof (process_answer_chunks_keys svc i q (length chunks) chunks 0) as K.
    destruct (process_answer_chunks svc i q (length chunks) 0 chunks) as [ev ens].
    exists ev, ens. split; [reflexivity | exact K].
Qed.

(** Witness for C10: a short answer and a 600-character answer. *)
Lemma qa_entries_by_answer_length_witness :
  (exists ev ens, process_qa svc_ok split_strict 1 qa_short = Some (ev, ens) /\
     map qentry_key ens = [("qa_7", 0%nat, 1%nat)]) /\
  (exists ev ens, process_qa svc_ok split_strict 2 qa_long = Some (ev, ens) /\
     map qentry_key ens = [("qa_2_chunk_0", 0%nat, 1%nat)]).
Proof.
  split.
  - refine (proj1 (qa_entries_by_answer_length svc_ok split_strict 1 qa_short) _).
    vm_compute. lia.
  - refine (proj2 (qa_entries_by_answer_length svc_ok split_strict 2 qa_long) _
              [q_answer qa_long] _).
    + vm_compute. lia.
    + vm_compute. reflexivity.
Defined.

(** C10 counterexample.  A pair with a short answer whose embedding
    fails twice yields no entry, not exactly one. *)
Lemma qa_short_answer_no_entry :
  (String.length (q_answer qa_short) <= 500)%nat /\
  option_map (fun p => length (snd p)) (process_qa svc_down split_strict 1 qa_short) =
    Some 0%nat.
Proof. split; [vm_compute; lia | reflexivity]. Qed.

End TechQAClaims.

(** * Further properties of the code *)
Module StrFacts.

Lemma str_app_cons (x : ascii) (a b : string) : (String x a ++ b) = String x (a ++ b).
Proof. reflexivity. Qed.

Lemma str_app_assoc (a b c : string) : ((a ++ b) ++ c) = (a ++ (b ++ c)).
Proof. induction a as [|x a IH]; [reflexivity|]. rewrite !str_app_cons, IH. reflexivity. Qed.

Lemma las_app (a b : string) :
  list_ascii_of_string (a ++ b) = (list_ascii_of_string a ++ list_ascii_of_string b)%list.
Proof. induction a as [|x a IH]; [reflexivity|]. rewrite str_app_cons. simpl. rewrite IH. reflexivity. Qed.

Lemma las_inj (a b : string) : list_ascii_of_string a = list_ascii_of_string b -> a = b.
Proof.
  intros H. rewrite <- (string_of_list_ascii_of_string a),
    <- (string_of_list_ascii_of_string b), H. reflexivity.
Qed.

Lemma str_app_inv_head (p a b : string) : (p ++ a) = (p ++ b) -> a = b.
Proof.
  intros H. apply las_inj. apply (f_equal list_ascii_of_string) in H.
  rewrite !las_app in H. eapply app_inv_head. exact H.
Qed.

Lemma digits_aux_app (n : nat) : forall fuel acc, n < fuel ->
  digits_aux fuel n acc = (string_of_nat n ++ acc).
Proof.
  induction n as [n IH] using (well_founded_induction lt_wf).
  intros [|f] acc Hf; [lia|].
  assert (E1 : digits_aux (S f) n acc =
               if (n <? 10)%nat then String (ascii_of_nat (48 + n mod 10)) acc
               else digits_aux f (n / 10) (String (ascii_of_nat (48 + n mod 10)) acc))
    by reflexivity.
  assert (E2 : string_of_nat n =
               if (n <? 10)%nat then String (ascii_of_nat (48 + n mod 10)) EmptyString
               else digits_aux n (n / 10) (String (ascii_of_nat (48 + n mod 10)) EmptyString))
    by reflexivity.
  rewrite E1, E2. destruct (n <? 10)%nat eqn:Hn; [reflexivity|].
  apply Nat.ltb_ge in Hn.
  assert (Hlt : n / 10 < n) by (apply Nat.div_lt; lia).
  rewrite (IH (n / 10) Hlt f) by lia. rewrite (IH (n / 10) Hlt n) by lia.
  rewrite str_app_assoc. reflexivity.
Qed.

Lemma string_of_nat_last (n : nat) :
  string_of_nat n =
  if (n <? 10)%nat then chr (48 + n mod 10)
  else (string_of_nat (n / 10) ++ chr (48 + n mod 10)).
Proof.
  assert (E2 : string_of_nat n =
               if (n <? 10)%nat then String (ascii_of_nat (48 + n mod 10)) EmptyString
               else digits_aux n (n / 10) (String (ascii_of_nat (48 + n mod 10)) EmptyString))
    by reflexivity.
  rewrite E2. destruct (n <? 10)%nat eqn:Hn; [reflexivity|].
  apply Nat.ltb_ge in Hn. apply digits_aux_app. apply Nat.div_lt; lia.
Qed.

Lemma digit_inj (n m : nat) :
  ascii_of_nat (48 + n mod 10) = ascii_of_nat (48 + m mod 10) -> n mod 10 = m mod 10.
Proof.
  intros H. apply (f_equal nat_of_ascii) in H.
  rewrite !nat_ascii_embedding in H.
  - lia.
  - pose proof (Nat.mod_upper_bound m 10). lia.
  - pose proof (Nat.mod_upper_bound n 10). lia.
Qed.

Lemma string_of_nat_nonempty (n : nat) : list_ascii_of_string (string_of_nat n) <> [].
Proof.
  rewrite string_of_nat_last. destruct (n <? 10)%nat; [discriminate|].
  rewrite las_app. simpl. intros H. apply app_eq_nil in H as [_ H]. discriminate.
Qed.

(** [str(n)] is injective on non-negative ints. *)
Lemma string_of_nat_inj (n : nat) : forall m, string_of_nat n = string_of_nat m -> n = m.
Proof.
  induction n as [n IH] using (well_founded_induction lt_wf).
  intros m H. apply (f_equal list_ascii_of_string) in H.
  rewrite (string_of_nat_last n), (string_of_nat_last m) in H.
  pose proof (string_of_nat_nonempty (n / 10)) as Nn.
  pose proof (string_of_nat_nonempty (m / 10)) as Nm.
  unfold chr in H.
  destruct (n <? 10)%nat eqn:Hn, (m <? 10)%nat eqn:Hm;
    [apply Nat.ltb_lt in Hn, Hm | apply Nat.ltb_lt in Hn; apply Nat.ltb_ge in Hm
    | apply Nat.ltb_ge in Hn; apply Nat.ltb_lt in Hm | apply Nat.ltb_ge in Hn, Hm];
    rewrite ?las_app in H; cbn [list_ascii_of_string] in H.
  - injection H as H. apply digit_inj in H.
    rewrite !Nat.mod_small in H by lia. exact H.
  - exfalso. apply (f_equal (@length ascii)) in H. rewrite length_app in H.
    destruct (list_ascii_of_string (string_of_nat (m / 10))); [contradiction|].
    simpl in H. lia.
  - exfalso. apply (f_equal (@length ascii)) in H. rewrite length_app in H.
    destruct (list_ascii_of_string (string_of_nat (n / 10))); [contradiction|].
    simpl in H. lia.
  - apply app_inj_tail in H as [Hq Hd]. apply digit_inj in Hd.
    assert (Hq' : n / 10 = m / 10).
    { apply (IH (n / 10)); [apply Nat.div_lt; lia|]. apply las_inj. exact Hq. }
    rewrite (Nat.div_mod_eq n 10), (Nat.div_mod_eq m 10). lia.
Qed.

(** [str.lower] is idempotent. *)
Lemma lower_char_idem (c : ascii) : lower_char (lower_char c) = lower_char c.
Proof. destruct c as [[] [] [] [] [] [] [] []]; vm_compute; reflexivity. Qed.

Lemma lower_idem (s : string) : lower (lower s) = lower s.
Proof. induction s as [|c s IH]; simpl; [reflexivity | rewrite lower_char_idem, IH; reflexivity]. Qed.

End StrFacts.

(** ** Retrieval: the request handler and its error paths *)
Module RetrievalExtra.
Import RagApi RagApiFacts RagHandler Samples StrFacts.

(** X1 ([rag_api.retrieve_experiences], lines 71-90): a missing or empty
    [GEMINI_API_KEY], a missing [./chroma_db] directory or a collection
    that cannot be opened ends the request with an error before any
    embedding request or store query is issued. *)
Theorem handler_config_error_no_requests (api_key : option string)
    (db_path_exists : bool) (collection : option (store * Z)) (svc : service)
    (query : string) (top_k : Z) :
  (api_key = None \/ api_key = Some EmptyString \/ db_path_exists = false \/
   collection = None) ->
  retrieve_experiences api_key db_path_exists collection svc query top_k = ([], None).
Proof.
  intros H. unfold retrieve_experiences.
  destruct api_key as [k|]; [|reflexivity].
  destruct (truthy k) eqn:Hk; [|reflexivity].
  destruct db_path_exists; [|reflexivity].
  destruct collection as [[st count]|]; [|reflexivity].
  exfalso. destruct H as [H | [H | [H | H]]]; try discriminate.
  injection H as ->. discriminate.
Qed.

Lemma handler_config_error_no_requests_witness :
  retrieve_experiences (Some "key") false (Some (store_of ranked_ce, 7%Z)) svc_ok
    "query" 3%Z = ([], None).
Proof.
  apply (handler_config_error_no_requests (Some "key") false
           (Some (store_of ranked_ce, 7%Z)) svc_ok "query" 3%Z).
  right. right. left. reflexivity.
Defined.

(** X2 ([rag_api.get_embedding] and lines 92-112): the store is queried
    exactly when the primary embedding request or its retry succeeds;
    when both fail the request ends with an error. *)
Theorem retrieve_store_queried_iff_embedded (svc : service) (st : store)
    (count : Z) (query : string) (top_k : Z) :
  ((exists n, In (StoreQuery n) (fst (retrieve svc st count query top_k))) <->
   (svc (Some (query_task_type query)) query <> None \/ svc None query <> None)) /\
  (svc (Some (query_task_type query)) query = None -> svc None query = None ->
   snd (retrieve svc st count query top_k) = None).
Proof.
  unfold retrieve, get_embedding_api, embed_with_fallback.
  destruct (svc (Some (query_task_type query)) query) as [v|] eqn:E1.
  - simpl. split; [|discriminate]. split.
    + intros _. left. discriminate.
    + intros _. exists (Z.min (top_k * 3) count). simpl. auto.
  - destruct (svc None query) as [v|] eqn:E2; simpl.
    + split; [|discriminate]. split.
      * intros _. right. discriminate.
      * intros _. exists (Z.min (top_k * 3) count). simpl. auto.
    + split; [|reflexivity]. split.
      * intros [n [H | [H | []]]]; discriminate.
      * intros [H | H]; contradiction.
Qed.

(** X3 ([rag_api.retrieve_experiences], lines 114-139): the answer lists
    no experience exactly when the store returned no candidate or
    [top_k <= 0]. *)
Theorem format_results_empty_iff (top_k : Z) (cs : list cand) :
  format_results top_k cs = [] <-> cs = [] \/ (top_k <= 0)%Z.
Proof.
  rewrite format_results_eq. destruct cs as [|c cs].
  - simpl. rewrite firstn_nil. split; auto.
  - unfold first_occ. simpl.
    destruct (Z.to_nat top_k) eqn:Hk; simpl.
    + split; [intros _; right; lia | reflexivity].
    + split; [discriminate|]. intros [H | H]; [discriminate | lia].
Qed.

(** X4 ([rag_api.get_embedding], line 53): the task type of the query
    embedding does not depend on letter case. *)
Theorem query_task_type_case_insensitive (text : string) :
  query_task_type (lower text) = query_task_type text.
Proof. unfold query_task_type. rewrite lower_idem. reflexivity. Qed.

End RetrievalExtra.

(** ** Ingestion of experiences: chunks, ids, batches *)
Module IngestExtra.
Import Ingest IngestFacts CollectFacts Samples StrFacts.

Lemma chunk_id_inj (e : exp) (i j : nat) : chunk_id e i = chunk_id e j -> i = j.
Proof.
  unfold chunk_id. intros H.
  apply str_app_inv_head, str_app_inv_head, str_app_inv_head in H.
  apply string_of_nat_inj. exact H.
Qed.

(** X5 ([ingest.main], lines 167-184): every experience whose chunking
    succeeds yields at least one chunk text, and each chunk text starts
    with the experience's title and company lines. *)
Theorem record_chunks_nonempty_with_header (split : splitter) (e : exp)
    (chunks : list string) :
  record_chunks split e = Some chunks ->
  chunks <> [] /\
  forall text, In text chunks ->
    exists rest, text = "Title: " ++ x_title e ++ nl ++ "Company: " ++
                        x_company e ++ nl ++ rest.
Proof.
  unfold record_chunks. destruct (chunk_description split (x_description e) 300 50)
    as [dcs|]; [|discriminate].
  intros H. injection H as <-.
  destruct dcs as [|c [|c' dcs']]; simpl.
  - split; [discriminate|]. intros text [<- | []]. eexists. reflexivity.
  - destruct (negb (truthy (strip c))); simpl.
    + split; [discriminate|]. intros text [<- | []]. eexists. reflexivity.
    + split; [discriminate|]. intros text [<- | []]. eexists. reflexivity.
  - split; [discriminate|]. intros text [<- | [<- | Hin]];
      [eexists; reflexivity | eexists; reflexivity|].
    apply in_map_iff in Hin as [chunk [<- _]]. eexists. reflexivity.
Qed.

Lemma record_chunks_nonempty_with_header_witness :
  record_chunks split_strict exp_one <> None /\
  exists chunks, record_chunks split_strict exp_one = Some chunks /\ chunks <> [].
Proof.
  split; [vm_compute; discriminate|].
  eexists. split; [reflexivity|].
  apply (proj1 (record_chunks_nonempty_with_header split_strict exp_one _ eq_refl)).
Defined.

(** X6 ([ingest.main], lines 187-209): in the entries of a run, every
    entry's [chunk_index] is below its [total_chunks], [total_chunks] is
    the number of chunk texts of its experience, its id is built from
    the experience id and the chunk index, its [experience_id] is the
    experience's id and its [star_format] the experience's STAR text. *)
Theorem ingest_entry_metadata (svc : service) (split : splitter) (exps : list exp)
    (evs : list event) (ens : list entry) :
  collect svc split exps = Some (evs, ens) ->
  forall en, In en ens ->
    exists e chunks,
      In e exps /\ record_chunks split e = Some chunks /\
      i_chunk_index (en_meta en) < i_total_chunks (en_meta en) /\
      i_total_chunks (en_meta en) = length chunks /\
      en_id en = chunk_id e (i_chunk_index (en_meta en)) /\
      chunks !! i_chunk_index (en_meta en) = Some (en_doc en) /\
      i_experience_id (en_meta en) = x_id e /\
      i_star_format (en_meta en) = create_star_format_text e.
Proof.
  intros H en Hin. apply collect_spec in H as [_ Hens].
  apply Hens in Hin as [e [chunks [i [text [v [He [Hc [Hi [_ ->]]]]]]]]].
  exists e, chunks. simpl. repeat split; auto.
  apply lookup_lt_Some in Hi. exact Hi.
Qed.

Lemma ingest_entry_metadata_witness :
  exists evs ens, collect svc_ok split_strict [exp_one] = Some (evs, ens) /\
  forall en, In en ens -> exists e chunks,
      In e [exp_one] /\ record_chunks split_strict e = Some chunks /\
      i_chunk_index (en_meta en) < i_total_chunks (en_meta en) /\
      i_total_chunks (en_meta en) = length chunks /\
      en_id en = chunk_id e (i_chunk_index (en_meta en)) /\
      chunks !! i_chunk_index (en_meta en) = Some (en_doc en) /\
      i_experience_id (en_meta en) = x_id e /\
      i_star_format (en_meta en) = create_star_format_text e.
Proof.
  do 2 eexists. split; [vm_compute; reflexivity|].
  eapply (ingest_entry_metadata svc_ok split_strict [exp_one]).
  reflexivity.
Defined.

(** X7 ([ingest.main], lines 187-199): the chunk ids of one experience
    are pairwise distinct. *)
Theorem process_chunks_ids_distinct (svc : service) (e : exp) (total : nat)
    (chunks : list string) (k : nat) :
  NoDup (map en_id (snd (process_chunks svc e total k chunks))).
Proof.
  revert k. induction chunks as [|t rest IH]; intros k; simpl; [constructor|].
  pose proof (process_chunks_entries svc e total rest (S k)) as PE.
  specialize (IH (S k)).
  destruct (get_embedding_doc svc t) as [ev r].
  destruct (process_chunks svc e total (S k) rest) as [evs ens]. simpl in *.
  destruct r as [v|]; [|exact IH].
  simpl. constructor; [|exact IH].
  intros Hin. apply in_map_iff in Hin as [en [Hid Hen]].
  apply PE in Hen as [i [text [w [_ [_ ->]]]]].
  simpl in Hid. apply chunk_id_inj in Hid. lia.
Qed.

(** X8 ([ingest.main], lines 213-237): the batches handed to
    [collection.add] are [ceil(n / 100)] non-empty slices of at most 100
    entries which, concatenated, give the entries in order; when the ids
    are pairwise distinct and none is stored yet, every batch is
    accepted and the result is that of adding the entries one at a
    time. *)
Theorem batches_partition (ens : list entry) (c : collection) :
  length (batch_slices ens) = (length ens + 99) / 100 /\
  (forall b, In b (batch_slices ens) -> b <> [] /\ length b <= 100) /\
  concat (batch_slices ens) = ens /\
  (NoDup (map en_id ens) -> (forall en, In en ens -> c !! en_id en = None) ->
   store_batches ens c = (insert_all c ens, true)).
Proof.
  set (n := length ens).
  assert (Hd := Nat.div_mod_eq (n + 100 - 1) 100).
  assert (Hm := Nat.mod_upper_bound (n + 100 - 1) 100).
  split; [|split; [|split]].
  - unfold batch_slices, batch_size. rewrite length_map, length_seq.
    f_equal. fold n. lia.
  - unfold batch_slices, batch_size. cbv zeta. fold n. intros b Hb.
    apply in_map_iff in Hb as [bi [<- Hbi]]. apply in_seq in Hbi.
    assert (Hlt : bi * 100 < n) by nia.
    unfold slice. rewrite length_firstn, length_skipn. fold n.
    split.
    + intros H0. apply (f_equal (@length entry)) in H0.
      rewrite length_firstn, length_skipn in H0. fold n in H0. simpl in H0. lia.
    + lia.
  - apply batch_slices_concat.
  - apply store_batches_fresh.
Qed.

Lemma batches_partition_witness :
  store_batches [mk_entry exp_one 1 0 "a" [1%Z]] ∅ =
  (insert_all ∅ [mk_entry exp_one 1 0 "a" [1%Z]], true).
Proof.
  apply (proj2 (proj2 (proj2 (batches_partition [mk_entry exp_one 1 0 "a" [1%Z]] ∅)))).
  - constructor; [intros []|constructor].
  - intros en _. apply lookup_empty.
Defined.

(** X17 ([ingest.main], lines 213-237, with [collection.add]): a run of
    at most 100 entries in which two entries share an id (two
    experiences with the same id) stores nothing: its single [add]
    raises [DuplicateIDError]. *)
Theorem store_batches_duplicate_raises (ens : list entry) (c : collection)
    (Hlen : length ens <= 100) (Hdup : ~ NoDup (map en_id ens)) :
  store_batches ens c = (c, false).
Proof.
  destruct ens as [|en ens']; [exfalso; apply Hdup; constructor|].
  set (L := en :: ens') in *.
  assert (Hs : batch_slices L = [L]).
  { unfold batch_slices, batch_size. cbv zeta.
    assert (H1 : (length L + 100 - 1) / 100 = 1).
    { symmetry. apply (Nat.div_unique _ _ _ (length L - 1)); simpl in *; lia. }
    rewrite H1. simpl seq. cbn [map]. f_equal.
    unfold slice. rewrite Nat.min_r by lia. simpl. rewrite firstn_all. reflexivity. }
  unfold store_batches. rewrite Hs. simpl. rewrite add_batch_dup by exact Hdup.
  reflexivity.
Qed.

Lemma store_batches_duplicate_raises_witness :
  store_batches [mk_entry exp_one 1 0 "a" [1%Z]; mk_entry exp_one 1 0 "b" [1%Z]] ∅ =
  (∅, false).
Proof.
  apply store_batches_duplicate_raises.
  - simpl. lia.
  - intros H. apply NoDup_cons_iff in H as [H _]. apply H. left. reflexivity.
Defined.

(** X9 ([ingest.main], lines 130-237): a run into a fresh store whose
    entries have pairwise distinct ids leaves a collection holding
    exactly those entries, each under its own id. *)
Theorem fresh_ingest_index (svc : service) (split : splitter) (exps : list exp)
    (answer : string) (evs : list event) (ens : list entry) (c : collection) :
  collect svc split exps = Some (evs, ens) ->
  NoDup (map en_id ens) ->
  main svc split exps answer None = Some c ->
  size c = length ens /\
  (forall en, In en ens -> c !! en_id en = Some en) /\
  (forall k x, c !! k = Some x -> In x ens /\ en_id x = k).
Proof.
  intros Hc Hnd Hm. simpl in Hm. injection Hm as <-.
  unfold ingest_into. rewrite (ingest_run_fresh svc split exps evs ens Hc Hnd). simpl.
  split; [|split].
  - rewrite insert_all_size; [rewrite map_size_empty; lia | exact Hnd|].
    intros en _. apply lookup_empty.
  - intros en Hin. apply insert_all_in; assumption.
  - intros k x Hk. destruct (insert_all_from ens ∅ k x Hk) as [Hin | Habs].
    + split; [exact Hin|]. revert Hk. apply insert_all_keys.
      intros k' x' H'. rewrite lookup_empty in H'. discriminate.
    + rewrite lookup_empty in Habs. discriminate.
Qed.

Lemma fresh_ingest_index_witness :
  exists evs ens c, collect svc_ok split_strict [exp_one] = Some (evs, ens) /\
    NoDup (map en_id ens) /\ main svc_ok split_strict [exp_one] "y" None = Some c /\
    size c = length ens.
Proof.
  do 3 eexists. split; [reflexivity|].
  match goal with |- NoDup ?l /\ _ =>
    assert (Hnd : NoDup l) by (vm_compute; constructor; [intros []|constructor])
  end.
  split; [exact Hnd|]. split; [reflexivity|].
  exact (proj1 (fresh_ingest_index svc_ok split_strict [exp_one] "y" _ _ _
                  eq_refl Hnd eq_refl)).
Defined.

End IngestExtra.

(** ** Ingestion of technical Q&A pairs *)
Module TechQAExtra.
Import TechQA Samples StrFacts.

Lemma substring_prefix (s : string) : forall n,
  exists rest, s = (substring 0 n s ++ rest).
Proof.
  induction s as [|c s IH]; intros [|n].
  - exists EmptyString. reflexivity.
  - exists EmptyString. reflexivity.
  - exists (String c s). reflexivity.
  - destruct (IH n) as [rest Hr]. exists rest. simpl.
    rewrite str_app_cons, <- Hr. reflexivity.
Qed.

Lemma substring_length (s : string) : forall n,
  String.length (substring 0 n s) = Nat.min n (String.length s).
Proof.
  induction s as [|c s IH]; intros [|n]; simpl; try reflexivity.
  rewrite IH. reflexivity.
Qed.

Lemma substring_all (s : string) : forall n,
  (String.length s <= n)%nat -> substring 0 n s = s.
Proof.
  induction s as [|c s IH]; intros [|n] H; simpl in *; try reflexivity; [lia|].
  rewrite IH by lia. reflexivity.
Qed.

Lemma qa_chunk_id_inj (i : nat) (q : qa) (a b : nat) : chunk_id i q a = chunk_id i q b -> a = b.
Proof.
  unfold chunk_id. intros H.
  apply str_app_inv_head, str_app_inv_head, str_app_inv_head in H.
  apply string_of_nat_inj. exact H.
Qed.

Lemma process_answer_chunks_in (svc : service) (i : nat) (q : qa) (total : nat)
    (chunks : list string) : forall k en,
  In en (snd (process_answer_chunks svc i q total k chunks)) ->
  exists j, (k <= j)%nat /\ qe_id en = chunk_id i q j /\ qe_meta en = mk_meta i q j total.
Proof.
  induction chunks as [|t rest IH]; intros k en Hin; simpl in Hin; [contradiction|].
  specialize (IH (S k) en).
  destruct (get_embedding_doc svc (chunk_content q k t)) as [ev r].
  destruct (process_answer_chunks svc i q total (S k) rest) as [evs ens].
  simpl in *. destruct r as [v|].
  - destruct Hin as [<- | Hin].
    + exists k. simpl. auto.
    + destruct (IH Hin) as [j [Hj Hrest]]. exists j. split; [lia | exact Hrest].
  - destruct (IH Hin) as [j [Hj Hrest]]. exists j. split; [lia | exact Hrest].
Qed.

Lemma process_qa_in (svc : service) (split : Ingest.splitter) (i : nat) (q : qa)
    (ev : list event) (ens : list qentry) (en : qentry) :
  process_qa svc split i q = Some (ev, ens) -> In en ens ->
  (exists idx total, qe_meta en = mk_meta i q idx total) /\
  (qe_id en = "qa_" ++ py_str (qa_id i q) \/ exists idx, qe_id en = chunk_id i q idx).
Proof.
  unfold process_qa. intros H Hin.
  destruct (500 <? String.length (q_answer q))%nat.
  - destruct (chunk_text split (q_answer q) 300 50) as [chunks|]; [|discriminate].
    injection H as H. pose proof (process_answer_chunks_in svc i q (length chunks)
                                    chunks 0 en) as P.
    rewrite H in P. simpl in P. destruct (P Hin) as [j [_ [Hid Hm]]].
    split; [exists j, (length chunks); exact Hm | right; exists j; exact Hid].
  - destruct (get_embedding_doc svc (create_text_for_embedding q)) as [ev0 [v|]];
      injection H as _ <-; [|contradiction].
    destruct Hin as [<- | []]. simpl. split; [exists 0%nat, 1%nat; reflexivity | left; reflexivity].
Qed.

Lemma process_qa_none (svc : service) (split : Ingest.splitter) (i : nat) (q : qa) :
  process_qa svc split i q = None <->
  (500 < String.length (q_answer q))%nat /\ chunk_text split (q_answer q) 300 50 = None.
Proof.
  unfold process_qa. destruct (500 <? String.length (q_answer q))%nat eqn:Hl.
  - apply Nat.ltb_lt in Hl. destruct (chunk_text split (q_answer q) 300 50).
    + split; [discriminate | intros [_ H]; discriminate].
    + split; auto.
  - apply Nat.ltb_ge in Hl.
    destruct (get_embedding_doc svc (create_text_for_embedding q)) as [ev r].
    split; [discriminate | intros [H _]; lia].
Qed.

(** X10 ([ingest_technical_qa.main], lines 182-190 and 204-212): the
    [answer] metadata of an entry is the whole answer when it has at most
    500 characters and otherwise its first 500 characters; the
    [question] metadata is a prefix of the question of at most 200
    characters. *)
Theorem qa_metadata_truncation (svc : service) (split : Ingest.splitter) (i : nat)
    (q : qa) (ev : list event) (ens : list qentry) :
  process_qa svc split i q = Some (ev, ens) ->
  forall en, In en ens ->
    ((String.length (q_answer q) <= 500)%nat -> qm_answer (qe_meta en) = q_answer q) /\
    ((500 < String.length (q_answer q))%nat ->
       String.length (qm_answer (qe_meta en)) = 500%nat /\
       exists rest, q_answer q = (qm_answer (qe_meta en) ++ rest)) /\
    (String.length (qm_question (qe_meta en)) <= 200)%nat /\
    exists rest, q_question q = (qm_question (qe_meta en) ++ rest).
Proof.
  intros H en Hin. destruct (process_qa_in svc split i q ev ens en H Hin)
    as [[idx [total Hm]] _].
  rewrite Hm. unfold mk_meta. simpl. split; [|split; [|split]].
  - apply substring_all.
  - intros Hl. split; [rewrite substring_length; lia | apply substring_prefix].
  - rewrite substring_length. lia.
  - apply substring_prefix.
Qed.

Lemma qa_metadata_truncation_witness :
  exists ev ens, process_qa svc_ok split_strict 2 qa_long = Some (ev, ens) /\
    forall en, In en ens -> String.length (qm_answer (qe_meta en)) = 500%nat.
Proof.
  do 2 eexists. split; [reflexivity|]. intros en Hin.
  refine (proj1 (proj1 (proj2 (qa_metadata_truncation svc_ok split_strict 2 qa_long
                                 _ _ eq_refl en Hin)) _)).
  vm_compute. lia.
Defined.

(** X11 ([ingest_technical_qa.main], lines 153-212): the loop over the
    pairs aborts exactly when splitting the answer of a pair longer than
    500 characters raises; a failing embedding never aborts it. *)
Theorem collect_qa_aborts_iff_split_fails (svc : service) (split : Ingest.splitter)
    (qas : list qa) : forall i,
  collect_qa svc split i qas = None <->
  exists q, In q qas /\ (500 < String.length (q_answer q))%nat /\
            chunk_text split (q_answer q) 300 50 = None.
Proof.
  induction qas as [|q rest IH]; intros i; simpl.
  - split; [discriminate | intros [q [[] _]]].
  - destruct (process_qa svc split i q) as [[ev ens]|] eqn:P.
    + assert (Hq : ~ ((500 < String.length (q_answer q))%nat /\
                      chunk_text split (q_answer q) 300 50 = None)).
      { intros Hc. apply (proj2 (process_qa_none svc split i q)) in Hc. congruence. }
      specialize (IH (S i)).
      destruct (collect_qa svc split (S i) rest) as [[evs ens']|].
      * split; [discriminate|]. intros [q' [[<- | Hin] Hc]].
        -- contradiction.
        -- assert (Hn : Some (evs, ens') = None) by (apply IH; exists q'; auto).
           discriminate.
      * split; [|reflexivity]. intros _. destruct (proj1 IH eq_refl) as [q' [Hin Hc]].
        exists q'. auto.
    + split; [|reflexivity]. intros _. exists q. split; [left; reflexivity|].
      apply (proj1 (process_qa_none svc split i q)). exact P.
Qed.

Lemma collect_qa_aborts_iff_split_fails_witness :
  collect_qa svc_down split_strict 1 [qa_short; qa_long] <> None.
Proof.
  intros H. apply collect_qa_aborts_iff_split_fails in H as [q [Hin [_ Hc]]].
  destruct Hin as [<- | [<- | []]]; vm_compute in Hc; discriminate.
Defined.

(** X12 ([ingest_technical_qa.main], lines 153, 171, 183, 193, 205): an
    entry of the run comes from the pair at some position [p]; its
    [qa_id] is that pair's id, or its position [i + p] counted from the
    start [i] of [enumerate] when the pair has no id, and its id is
    [qa_{qa_id}] or [qa_{qa_id}_chunk_{idx}]. *)
Theorem collect_qa_entry_ids (svc : service) (split : Ingest.splitter) (qas : list qa) :
  forall i evs ens, collect_qa svc split i qas = Some (evs, ens) ->
  forall en, In en ens ->
    exists p q, nth_error qas p = Some q /\
      qm_qa_id (qe_meta en) = qa_id (i + p) q /\
      (qe_id en = "qa_" ++ py_str (qa_id (i + p) q) \/
       exists idx, qe_id en = chunk_id (i + p) q idx).
Proof.
  induction qas as [|q rest IH]; intros i evs ens H en Hin; simpl in H.
  - injection H as _ <-. contradiction.
  - destruct (process_qa svc split i q) as [[ev ens0]|] eqn:P; [|discriminate].
    destruct (collect_qa svc split (S i) rest) as [[evs' ens']|] eqn:C; [|discriminate].
    injection H as _ <-. apply in_app_or in Hin as [Hin | Hin].
    + destruct (process_qa_in svc split i q ev ens0 en P Hin) as [[idx [tot Hm]] Hid].
      exists 0%nat, q. rewrite Nat.add_0_r. split; [reflexivity|].
      rewrite Hm. split; [reflexivity | exact Hid].
    + destruct (IH (S i) evs' ens' C en Hin) as [p [q' [Hp Hrest]]].
      exists (S p), q'. replace (i + S p)%nat with (S i + p)%nat by lia.
      split; [exact Hp | exact Hrest].
Qed.

Lemma collect_qa_entry_ids_witness :
  exists evs ens, collect_qa svc_ok split_strict 1 [qa_short; qa_long] = Some (evs, ens) /\
    forall en, In en ens ->
    exists p q, nth_error [qa_short; qa_long] p = Some q /\
      qm_qa_id (qe_meta en) = qa_id (1 + p) q.
Proof.
  do 2 eexists. split; [reflexivity|]. intros en Hin.
  destruct (collect_qa_entry_ids svc_ok split_strict [qa_short; qa_long] 1 _ _ eq_refl en Hin)
    as [p [q [Hp [Hid _]]]].
  exists p, q. split; assumption.
Defined.

(** X13 ([ingest_technical_qa.main], lines 164-181): the chunk ids of the
    answer chunks of one pair are pairwise distinct. *)
Theorem qa_chunk_ids_distinct (svc : service) (i : nat) (q : qa) (total : nat)
    (chunks : list string) (k : nat) :
  NoDup (map qe_id (snd (process_answer_chunks svc i q total k chunks))).
Proof.
  revert k. induction chunks as [|t rest IH]; intros k; simpl; [constructor|].
  pose proof (process_answer_chunks_in svc i q total rest (S k)) as PE.
  specialize (IH (S k)).
  destruct (get_embedding_doc svc (chunk_content q k t)) as [ev r].
  destruct (process_answer_chunks svc i q total (S k) rest) as [evs ens]. simpl in *.
  destruct r as [v|]; [|exact IH].
  simpl. constructor; [|exact IH].
  intros Hin. apply in_map_iff in Hin as [en [Hid Hen]].
  destruct (PE en Hen) as [j [Hj [Hid' _]]].
  rewrite Hid' in Hid. apply qa_chunk_id_inj in Hid. lia.
Qed.

End TechQAExtra.

(** ** The general knowledge-base script *)
Module GeneralKBExtra.
Import GeneralKB Samples IngestFacts.

Definition kb_step (c : kb_collection) (x : string * (string * (vector * string)))
    : kb_collection :=
  let '(i, (d, (v, t))) := x in
  <[i := {| kr_document := d; kr_vector := v; kr_title := t; kr_kb := "general" |}]> c.

Definition kb_row_of (x : string * (string * (vector * string))) : kb_row :=
  let '(_, (d, (v, t))) := x in
  {| kr_document := d; kr_vector := v; kr_title := t; kr_kb := "general" |}.

Lemma kb_add_fold (ids docs : list string) (vecs : list vector) (titles : list string) :
  kb_add ids docs vecs titles = fold_left kb_step (combine ids (combine docs (combine vecs titles))) ∅.
Proof. reflexivity. Qed.

Lemma kb_step_eq (c : kb_collection) x : kb_step c x = <[fst x := kb_row_of x]> c.
Proof. destruct x as [i [d [v t]]]. reflexivity. Qed.

Lemma kb_fold_other (L : list (string * (string * (vector * string)))) : forall c k,
  (forall x, In x L -> fst x <> k) -> fold_left kb_step L c !! k = c !! k.
Proof.
  induction L as [|x L IH]; intros c k H; [reflexivity|].
  simpl. rewrite IH by (intros y Hy; apply H; right; exact Hy).
  rewrite kb_step_eq. apply lookup_insert_ne. apply H. left. reflexivity.
Qed.

Lemma kb_fold_in (L : list (string * (string * (vector * string)))) : forall c x,
  NoDup (map fst L) -> In x L -> fold_left kb_step L c !! fst x = Some (kb_row_of x).
Proof.
  induction L as [|y L IH]; intros c x Hnd Hin; [contradiction|].
  simpl in *. apply NoDup_cons_iff in Hnd as [Hy Hnd]. destruct Hin as [<- | Hin].
  - rewrite kb_fold_other, kb_step_eq; [apply lookup_insert_eq|].
    intros z Hz Heq. apply Hy. rewrite <- Heq. apply in_map. exact Hz.
  - apply IH; assumption.
Qed.

Lemma kb_fold_size (L : list (string * (string * (vector * string)))) : forall c,
  NoDup (map fst L) -> (forall x, In x L -> c !! fst x = None) ->
  size (fold_left kb_step L c) = size c + length L.
Proof.
  induction L as [|y L IH]; intros c Hnd Hfresh; [simpl; lia|].
  simpl in Hnd. apply NoDup_cons_iff in Hnd as [Hy Hnd]. simpl.
  rewrite IH; [| exact Hnd |].
  - rewrite kb_step_eq, map_size_insert_None by (apply Hfresh; left; reflexivity). lia.
  - intros z Hz. rewrite kb_step_eq, lookup_insert_ne.
    + apply Hfresh. right. exact Hz.
    + intros Heq. apply Hy. rewrite Heq. apply in_map. exact Hz.
Qed.

Lemma map_opt_Some {A B} (f : A -> option B) (l : list A) : forall ys,
  map_opt f l = Some ys -> Forall2 (fun x y => f x = Some y) l ys.
Proof.
  induction l as [|x l IH]; intros ys H; simpl in H.
  - injection H as <-. constructor.
  - destruct (f x) as [y|] eqn:Hx; [|discriminate].
    destruct (map_opt f l) as [ys'|]; [|discriminate].
    injection H as <-. constructor; [exact Hx | apply IH; reflexivity].
Qed.

Lemma map_opt_map_Some {A B} (f : A -> option B) (l : list A) (ys : list B) :
  map_opt f l = Some ys -> map f l = map Some ys.
Proof.
  revert ys. induction l as [|x l IH]; intros ys H; simpl in H.
  - injection H as <-. reflexivity.
  - destruct (f x) as [y|] eqn:Hx; [|discriminate].
    destruct (map_opt f l) as [ys'|]; [|discriminate].
    injection H as <-. simpl. rewrite Hx, (IH ys' eq_refl). reflexivity.
Qed.

Lemma map_opt_None {A B} (f : A -> option B) (l : list A) :
  map_opt f l = None <-> exists x, In x l /\ f x = None.
Proof.
  induction l as [|x l IH]; simpl.
  - split; [discriminate | intros [x [[] _]]].
  - destruct (f x) as [y|] eqn:Hx.
    + destruct (map_opt f l) as [ys|].
      * split; [discriminate|]. intros [z [[<- | Hz] Hn]]; [congruence|].
        assert (H : Some ys = None) by (apply IH; exists z; auto). discriminate.
      * split; [|reflexivity]. intros _. destruct (proj1 IH eq_refl) as [z [Hz Hn]].
        exists z. auto.
    + split; [|reflexivity]. intros _. exists x. auto.
Qed.

Lemma Forall2_in_l {A B} (R : A -> B -> Prop) (l : list A) (ys : list B) :
  Forall2 R l ys -> forall x, In x l -> exists y, In y ys /\ R x y.
Proof.
  induction 1 as [|x y l ys Hxy _ IH]; intros z Hz; [contradiction|].
  destruct Hz as [<- | Hz]; [exists y; split; [left|]; auto|].
  destruct (IH z Hz) as [w [Hw Hr]]. exists w. split; [right|]; auto.
Qed.

Lemma Forall2_in_r {A B} (R : A -> B -> Prop) (l : list A) (ys : list B) :
  Forall2 R l ys -> forall y, In y ys -> exists x, In x l /\ R x y.
Proof.
  induction 1 as [|x y l ys Hxy _ IH]; intros z Hz; [contradiction|].
  destruct Hz as [<- | Hz]; [exists x; split; [left|]; auto|].
  destruct (IH z Hz) as [w [Hw Hr]]. exists w. split; [right|]; auto.
Qed.

Lemma Forall2_len {A B} (R : A -> B -> Prop) (l : list A) (ys : list B) :
  Forall2 R l ys -> length l = length ys.
Proof. induction 1; simpl; lia. Qed.

Definition row_rel (embed : string -> option vector) (e : kb_entry)
    (x : string * (string * (vector * string))) : Prop :=
  let '(i, (d, (v, t))) := x in
  kb_id e = Some i /\ kb_content e = Some d /\ embed d = Some v /\ t = title_or_empty e.

Lemma combine_rel (embed : string -> option vector) (entries : list kb_entry) :
  forall ids docs vecs,
  Forall2 (fun e i => kb_id e = Some i) entries ids ->
  Forall2 (fun e d => kb_content e = Some d) entries docs ->
  Forall2 (fun d v => embed d = Some v) docs vecs ->
  Forall2 (row_rel embed) entries
    (combine ids (combine docs (combine vecs (map title_or_empty entries)))).
Proof.
  induction entries as [|e entries IH]; intros ids docs vecs Hi Hd Hv.
  - inversion Hi. constructor.
  - inversion Hi as [|? i ? ids' Hi1 Hi2]; subst.
    inversion Hd as [|? d ? docs' Hd1 Hd2]; subst.
    inversion Hv as [|? v ? vecs' Hv1 Hv2]; subst.
    simpl. constructor; [repeat split; assumption|].
    apply IH; assumption.
Qed.

Lemma rel_nodup (embed : string -> option vector) (entries : list kb_entry) L :
  Forall2 (row_rel embed) entries L -> NoDup (map kb_id entries) -> NoDup (map fst L).
Proof.
  induction 1 as [|e x entries L Hr Hf IH]; intros Hnd; simpl; [constructor|].
  simpl in Hnd. apply NoDup_cons_iff in Hnd as [He Hnd].
  constructor; [|apply IH; exact Hnd].
  intros Hin. apply in_map_iff in Hin as [y [Hy Hyin]].
  destruct (Forall2_in_r _ _ _ Hf y Hyin) as [e' [He' Hr']].
  apply He. destruct x as [i [d [v t]]], y as [i' [d' [v' t']]].
  simpl in Hy, Hr, Hr'. subst i'. destruct Hr as [Hid _], Hr' as [Hid' _].
  rewrite Hid, <- Hid'. apply in_map. exact He'.
Qed.



(** X15 ([ingest_general_kb.py], lines 23-43): once the key is set, an
    existing [general_kb] collection is deleted before the entries are
    read, so an entry without ["id"] or ["content"] ends the run with a
    [KeyError] and an empty collection; a failing embedding likewise
    leaves an empty collection. *)
Theorem kb_late_failure_empties_collection (embed : string -> option vector)
    (entries : list kb_entry) (k : string) (db : option kb_collection) :
  truthy k = true ->
  ((exists e, In e entries /\ (kb_id e = None \/ kb_content e = None)) ->
   kb_ingest embed (KbParsed entries) (Some k) db = (Some KeyError, Some ∅)) /\
  (fst (kb_ingest embed (KbParsed entries) (Some k) db) = Some EmbeddingError ->
   snd (kb_ingest embed (KbParsed entries) (Some k) db) = Some ∅).
Proof.
  intros Hk. unfold kb_ingest. destruct entries as [|e0 entries].
  { split; [intros [e [[] _]] | discriminate]. }
  rewrite Hk. split.
  - intros [e [Hin [Hn | Hn]]].
    + replace (map_opt kb_id (e0 :: entries)) with (@None (list string)); [reflexivity|].
      symmetry. apply map_opt_None. exists e. auto.
    + destruct (map_opt kb_id (e0 :: entries)); [|reflexivity].
      replace (map_opt kb_content (e0 :: entries)) with (@None (list string)); [reflexivity|].
      symmetry. apply map_opt_None. exists e. auto.
  - destruct (map_opt kb_id (e0 :: entries)) as [ids|]; [|intros _; reflexivity].
    destruct (map_opt kb_content (e0 :: entries)) as [docs|]; [|intros _; reflexivity].
    destruct (has_dup ids); [intros _; reflexivity|].
    destruct (map_opt embed docs); [discriminate | intros _; reflexivity].
Qed.

Lemma kb_late_failure_empties_collection_witness :
  kb_ingest (fun _ => Some [1%Z])
    (KbParsed [{| kb_id := Some "a"; kb_content := None; kb_title := None |}])
    (Some "key") (Some (<["old" := {| kr_document := "d"; kr_vector := [];
                                      kr_title := EmptyString; kr_kb := "general" |}]> ∅))
  = (Some KeyError, Some ∅).
Proof.
  apply (proj1 (kb_late_failure_empties_collection (fun _ => Some [1%Z])
    [{| kb_id := Some "a"; kb_content := None; kb_title := None |}] "key"
    (Some (<["old" := {| kr_document := "d"; kr_vector := [];
                         kr_title := EmptyString; kr_kb := "general" |}]> ∅))
    eq_refl)).
  exists {| kb_id := Some "a"; kb_content := None; kb_title := None |}.
  split; [left; reflexivity | right; reflexivity].
Defined.





End GeneralKBExtra.
